(** * The comoco dashboard store (core4/webapps/comoco/src/store.js)

    A shallow embedding of the Vuex store of the comoco web application:
    the socket mutations, the grouping of a queue snapshot and the getters.

    Modelling conventions.
    - A plain JS object used as a dictionary is a [gmap string _] of its own
      properties.  Where the store reads an object at a name that comes
      with a message or from a caller (a job state, a name handed to a
      getter), a name that is not an own property is looked up in
      [Object.prototype] as JS does.
    - The names written in the settings module (the states and groups of
      [jobStates], the entries of [jobGroups]) are ordinary names, not
      property names of [Object.prototype].
    - A JS number in the counters is an integer-valued double, [NaN] or an
      infinity; additions round as doubles do.  Job weights are counts and
      are integers.
    - Vue and Vuex keep and hand back the values of the store as they are.
    - Mutations are functions on a pair of the store state and an
      environment that records what the mutation does outside of the state
      (the socket kept on [Vue.prototype], objects sent, console output). *)

From stdpp Require Import gmap strings list fin_maps pretty.
From Stdlib Require Import ZArith Lia.

Local Open Scope Z_scope.
Local Open Scope string_scope.

(** ** Data *)

(** A job of a queue snapshot: [{ state: .., n: .., ... }].  The remaining
    fields are carried along untouched by the store. *)
Record Job := mkJob {
  job_state : string;
  job_n : Z;
  job_rest : list (string * string)
}.

#[global] Instance Job_eq_dec : EqDecision Job.
Proof. solve_decision. Defined.

(** The values that occur in the counters: an integer-valued double,
    [NaN], an infinity, or a string (what [+=] leaves behind once a
    function or an object has been added to). *)
Inductive num :=
| Int (z : Z)
| NaN
| Infinity (negative : bool)
| Text (s : string).

#[global] Instance num_eq_dec : EqDecision num.
Proof. solve_decision. Defined.

(** The double nearest to an integer (ties to the even significand of 53
    bits), an infinity from [2 ^ 1024 - 2 ^ 970] on. *)
Definition round_double (z : Z) : num :=
  let a := Z.abs z in
  let e := Z.log2 a - 52 in
  if decide (e ≤ 0)%Z then Int z
  else
    let q := a / 2 ^ e in
    let r := a mod 2 ^ e in
    let half := 2 ^ (e - 1) in
    let q' := if decide (r < half)%Z then q
              else if decide (half < r)%Z then q + 1
              else if Z.even q then q else q + 1 in
    let m := q' * 2 ^ e in
    if decide (2 ^ 1024 ≤ m)%Z then Infinity (bool_decide (z < 0)%Z)
    else Int (Z.sgn z * m).

#[global] Arguments round_double : simpl never.

(** The number that an integer literal of a JSON message denotes. *)
Definition js_number (z : Z) : num := round_double z.

(** [Number::toString] on a non-negative integer-valued double [a] with
    [d] decimal digits: the digits [s] and the decimal exponent [n] when
    [k] digits are enough to tell [a] from every other double. *)
Definition digits_at (a d k : Z) : option (Z * Z) :=
  let p := 10 ^ (d - k) in
  let lo := a / p in
  let hi := lo + 1 in
  let fits s := bool_decide (round_double (s * p) = Int a) in
  let chosen :=
    match fits lo, fits hi with
    | true, true =>
        if decide (a - lo * p < hi * p - a)%Z then Some lo
        else if decide (hi * p - a < a - lo * p)%Z then Some hi
        else Some (if Z.even lo then lo else hi)
    | true, false => Some lo
    | false, true => Some hi
    | false, false => None
    end in
  (λ s, if decide (s = 10 ^ k) then (10 ^ (k - 1), d + 1) else (s, d)) <$> chosen.

(** The least number of digits that does. *)
Definition shortest_digits (a : Z) : Z * Z :=
  let d := Z.of_nat (String.length (pretty a)) in
  default (a, d) (head (omap (digits_at a d) (seqZ 1 (Z.min 17 d)))).

(** [String (z)]: the shortest digits, filled up with zeros up to 21
    digits and in exponent form beyond. *)
Definition integer_text (z : Z) : string :=
  let '(s, n) := shortest_digits (Z.abs z) in
  let digits := pretty s in
  let k := Z.of_nat (String.length digits) in
  let body :=
    if decide (n ≤ 21)%Z
    then digits ++ String.concat "" (replicate (Z.to_nat (n - k)) "0")
    else match digits with
         | String c "" => String c ""
         | String c rest => String c ("." ++ rest)
         | "" => ""
         end ++ "e+" ++ pretty (n - 1) in
  (if decide (z < 0)%Z then "-" else "") ++ body.

(** [String (v)] *)
Definition number_text (v : num) : string :=
  match v with
  | Int z => integer_text z
  | NaN => "NaN"
  | Infinity false => "Infinity"
  | Infinity true => "-Infinity"
  | Text s => s
  end.

(** [a + b]: string concatenation as soon as one side is a string, the
    addition of doubles otherwise. *)
Definition num_add (a b : num) : num :=
  match a, b with
  | Text s, _ => Text (s ++ number_text b)
  | _, Text t => Text (number_text a ++ t)
  | Int x, Int y => round_double (x + y)
  | NaN, _ => NaN
  | _, NaN => NaN
  | Infinity s1, Infinity s2 => if decide (s1 = s2) then Infinity s1 else NaN
  | Infinity s1, Int _ => Infinity s1
  | Int _, Infinity s2 => Infinity s2
  end.

(** [undefined + b] *)
Definition undefined_add (b : num) : num :=
  match b with
  | Text t => Text ("undefined" ++ t)
  | _ => NaN
  end.

(** What reading a property gives: a value of the counters, or a function
    or an object, kept as the string it converts to. *)
Inductive Property :=
| PValue (v : num)
| PObject (text : string).

(** [0], [NaN] and the empty string are falsy. *)
Definition falsy (v : num) : bool :=
  match v with
  | Int z => bool_decide (z = 0)
  | NaN => true
  | Infinity _ => false
  | Text s => bool_decide (s = "")
  end.

(** [x || 0], as the operand of the [+=] that follows: [undefined] and a
    falsy value give [0], a function or an object is truthy and enters the
    addition as its string. *)
Definition or_zero (x : option Property) : num :=
  match x with
  | Some (PValue v) => if falsy v then Int 0 else v
  | Some (PObject text) => Text text
  | None => Int 0
  end.

(** How V8 prints a native function. *)
Definition native_function_text (name : string) : string :=
  "function " ++ name ++ "() { [native code] }".

(** The properties of [Object.prototype], each with the string that its
    value converts to; [__proto__] gives [Object.prototype] itself. *)
Definition Object_prototype : gmap string string :=
  list_to_map
    (("constructor", native_function_text "Object")
     :: ("__proto__", "[object Object]")
     :: ((λ name, (name, native_function_text name))
           <$> ["__defineGetter__"; "__defineSetter__"; "__lookupGetter__";
                "__lookupSetter__"; "hasOwnProperty"; "isPrototypeOf";
                "propertyIsEnumerable"; "toLocaleString"; "toString"; "valueOf"])).

(** The properties of [Array.prototype] (ECMAScript 2019), which come
    before those of [Object.prototype]; [__proto__] gives
    [Array.prototype], which converts to the empty string. *)
Definition Array_prototype : gmap string string :=
  list_to_map
    (("constructor", native_function_text "Array")
     :: ("__proto__", "")
     :: ((λ name, (name, native_function_text name))
           <$> ["concat"; "copyWithin"; "entries"; "every"; "fill"; "filter";
                "find"; "findIndex"; "flat"; "flatMap"; "forEach"; "includes";
                "indexOf"; "join"; "keys"; "lastIndexOf"; "map"; "pop"; "push";
                "reduce"; "reduceRight"; "reverse"; "shift"; "slice"; "some";
                "sort"; "splice"; "toLocaleString"; "toString"; "unshift";
                "values"]))
  ∪ Object_prototype.

(** The values stored under the keys of [state.queue]: the counter object
    under ['stat'] and an array of jobs under every group name. *)
Inductive QueueValue :=
| QStat (s : gmap string num)
| QJobs (l : list Job).

#[global] Instance QueueValue_eq_dec : EqDecision QueueValue.
Proof. solve_decision. Defined.

(** A parsed socket message [{ name, created, data }]. *)
Record Message := mkMessage {
  msg_name : string;
  msg_created : string;
  msg_data : list Job
}.

#[global] Instance Message_eq_dec : EqDecision Message.
Proof. solve_decision. Defined.

(** [state.socket]; [message] is [''] initially ([None]) and the last
    message afterwards. *)
Record Socket := mkSocket {
  isConnected : bool;
  message : option Message;
  reconnectError : bool
}.

Record State := mkState {
  queue : gmap string QueueValue;
  socket : Socket
}.

(** The settings module ([./settings.js]) is a parameter of the store. *)
Record Settings := mkSettings {
  jobStates : gmap string string;
  jobGroups : list string
}.

(** An object handed to [sendObj]: [{ type, data }]. *)
Record OutObj := mkOutObj {
  out_type : string;
  out_data : list string
}.

Inductive ConsoleEntry :=
| ConsoleError (st : State)
| ConsoleInfo (st : State) (count : nat).

(** What the mutations touch outside of the store state: the socket saved
    in [Vue.prototype.$socket], the objects sent (with the socket they were
    sent on) and the console. *)
Record Env := mkEnv {
  vue_socket : option nat;
  sent : list (nat * OutObj);
  console : list ConsoleEntry
}.

(** The initial [state] of the store. *)
Definition initial_state : State :=
  {| queue := ∅;
     socket := {| isConnected := false; message := None; reconnectError := false |} |}.

Definition initial_env : Env :=
  {| vue_socket := None; sent := []; console := [] |}.

(** ** Grouping *)

(** Modelled from the spec: [createObjectWithDefaultValues] of [./helper.js]
    lives outside of this development.  It builds the "count-per-state
    summary" that the grouping accumulates into: an object with the keys of
    its argument, every counter at its default [0]. *)
Definition createObjectWithDefaultValues (obj : gmap string string) : gmap string num :=
  (λ _, Int 0) <$> obj.

(** [jobStates[jobState] || 'other']: an absent name and an empty group
    name are falsy; a name that [jobStates] inherits is a function or an
    object, which is truthy and, used as a key, is its string. *)
Definition group_of (cfg : Settings) (jobState : string) : string :=
  match jobStates cfg !! jobState with
  | Some g => if decide (g = "") then "other" else g
  | None =>
      match Object_prototype !! jobState with
      | Some text => text
      | None => "other"
      end
  end.

(** One turn of the [forEach] callback on the pair
    [(groupsDict, initialState)].  In [initialState[jobState] += job['n']]
    an inherited function or object turns the sum into a string; storing
    it under [__proto__] has no effect. *)
Definition group_step (cfg : Settings)
    (acc : gmap string (list Job) * gmap string num) (job : Job)
    : gmap string (list Job) * gmap string num :=
  let '(groupsDict, initialState) := acc in
  let jobState := job_state job in
  let group := group_of cfg jobState in
  let groupsDict' := <[group := (default [] (groupsDict !! group) ++ [job])%list]> groupsDict in
  let n := js_number (job_n job) in
  let initialState' :=
    match initialState !! jobState with
    | Some v => <[jobState := num_add v n]> initialState
    | None =>
        match Object_prototype !! jobState with
        | Some text =>
            if decide (jobState = "__proto__") then initialState
            else <[jobState := num_add (Text text) n]> initialState
        | None => <[jobState := undefined_add n]> initialState
        end
    end in
  (groupsDict', initialState').

Definition group_loop (cfg : Settings) (arr : list Job)
    : gmap string (list Job) * gmap string num :=
  fold_left (group_step cfg) arr (∅, createObjectWithDefaultValues (jobStates cfg)).

(** [{ 'stat': initialState, ...groupsDict }]: the spread comes last, so a
    group named ['stat'] takes the place of the counters. *)
Definition spread_result (groupsDict : gmap string (list Job)) (initialState : gmap string num)
    : gmap string QueueValue :=
  (QJobs <$> groupsDict) ∪ {[ "stat" := QStat initialState ]}.

(** [groupDataAndJobStat (created, arr, groupingKey)] at its only call,
    where [groupingKey] is ['state']: [job[groupingKey]] is [job_state]. *)
Definition groupDataAndJobStat (cfg : Settings) (created : string) (arr : list Job)
    : gmap string QueueValue :=
  let '(groupsDict, initialState) := group_loop cfg arr in
  spread_result groupsDict initialState.

(** ** Mutations *)

(** The subscription object of [SOCKET_ONOPEN]. *)
Definition interest : OutObj :=
  {| out_type := "interest"; out_data := ["queue"] |}.

Definition set_isConnected (b : bool) (st : State) : State :=
  {| queue := queue st;
     socket := {| isConnected := b;
                  message := message (socket st);
                  reconnectError := reconnectError (socket st) |} |}.

Definition set_message (m : Message) (st : State) : State :=
  {| queue := queue st;
     socket := {| isConnected := isConnected (socket st);
                  message := Some m;
                  reconnectError := reconnectError (socket st) |} |}.

Definition set_reconnectError (b : bool) (st : State) : State :=
  {| queue := queue st;
     socket := {| isConnected := isConnected (socket st);
                  message := message (socket st);
                  reconnectError := b |} |}.

Definition set_queue (q : gmap string QueueValue) (st : State) : State :=
  {| queue := q; socket := socket st |}.

(** [SOCKET_ONOPEN (state, event)]; [currentTarget] is the socket of the
    event. *)
Definition SOCKET_ONOPEN (w : State * Env) (currentTarget : nat) : State * Env :=
  let '(st, env) := w in
  let env1 := {| vue_socket := Some currentTarget;
                 sent := sent env; console := console env |} in
  let env2 :=
    match vue_socket env1 with
    | Some s => {| vue_socket := vue_socket env1;
                   sent := (sent env1 ++ [(s, interest)])%list;
                   console := console env1 |}
    | None => env1
    end in
  (set_isConnected true st, env2).

Definition SOCKET_ONCLOSE (w : State * Env) : State * Env :=
  let '(st, env) := w in
  (set_isConnected false st, env).

Definition SOCKET_ONERROR (w : State * Env) : State * Env :=
  let '(st, env) := w in
  (st, {| vue_socket := vue_socket env; sent := sent env;
          console := (console env ++ [ConsoleError st])%list |}).

Definition SOCKET_ONMESSAGE (cfg : Settings) (w : State * Env) (m : Message) : State * Env :=
  let '(st, env) := w in
  let st1 := set_message m st in
  if decide (msg_name m = "summary")
  then (set_queue (groupDataAndJobStat cfg (msg_created m) (msg_data m)) st1, env)
  else (st1, env).

Definition SOCKET_RECONNECT (w : State * Env) (count : nat) : State * Env :=
  let '(st, env) := w in
  (st, {| vue_socket := vue_socket env; sent := sent env;
          console := (console env ++ [ConsoleInfo st count])%list |}).

Definition SOCKET_RECONNECT_ERROR (w : State * Env) : State * Env :=
  let '(st, env) := w in
  (set_reconnectError true st, env).

(** The socket events that the websocket plugin commits to the store. *)
Inductive Event :=
| OnOpen (currentTarget : nat)
| OnClose
| OnError
| OnMessage (m : Message)
| Reconnect (count : nat)
| ReconnectError.

Definition commit (cfg : Settings) (w : State * Env) (e : Event) : State * Env :=
  match e with
  | OnOpen t => SOCKET_ONOPEN w t
  | OnClose => SOCKET_ONCLOSE w
  | OnError => SOCKET_ONERROR w
  | OnMessage m => SOCKET_ONMESSAGE cfg w m
  | Reconnect c => SOCKET_RECONNECT w c
  | ReconnectError => SOCKET_RECONNECT_ERROR w
  end.

(** The store after a sequence of events, oldest first. *)
Definition run (cfg : Settings) (evs : list Event) (w : State * Env) : State * Env :=
  fold_left (commit cfg) evs w.

Definition is_open_close (e : Event) : bool :=
  match e with
  | OnOpen _ | OnClose => true
  | _ => false
  end.

Definition is_summary (e : Event) : bool :=
  match e with
  | OnMessage m => bool_decide (msg_name m = "summary")
  | _ => false
  end.

(** ** Getters *)

(** Modelled from the spec: [clone] of [pnbi-base/core4/helper] lives
    outside of this development; it copies its argument, and a copy of a
    value is that value. *)
Definition clone {A : Type} (x : A) : A := x.

(** The entries of the [getters] object. *)
Inductive Getter :=
| GroupGetter (currentItem : string)
| GetJobsByGroupName
| GetStateCounter.

(** What reading a getter gives: an array of jobs, the counter object (the
    group getter of a group named ['stat']), one of the two functions, or
    a function or object that the [getters] object inherits, kept as its
    string. *)
Inductive GetterValue :=
| GVJobs (l : list Job)
| GVStat (s : gmap string num)
| GVJobsByGroupName
| GVStateCounter
| GVInherited (text : string).

(** [mapGettersJobGroups (arr)] *)
Definition mapGettersJobGroups (arr : list string) : gmap string Getter :=
  fold_left (λ computedResult currentItem,
               <[currentItem := GroupGetter currentItem]> computedResult) arr ∅.

(** The [getters] of the store: the spread of the group getters, then the
    two named ones. *)
Definition getters (cfg : Settings) : gmap string Getter :=
  <["getStateCounter" := GetStateCounter]>
    (<["getJobsByGroupName" := GetJobsByGroupName]>
       (mapGettersJobGroups (jobGroups cfg))).

(** [(state) => clone (state.queue[currentItem] || [])] *)
Definition group_getter (currentItem : string) (st : State) : GetterValue :=
  match queue st !! currentItem with
  | Some (QJobs l) => GVJobs (clone l)
  | Some (QStat s) => GVStat (clone s)
  | None => GVJobs (clone [])
  end.

Definition getter_value (g : Getter) (st : State) : GetterValue :=
  match g with
  | GroupGetter item => group_getter item st
  | GetJobsByGroupName => GVJobsByGroupName
  | GetStateCounter => GVStateCounter
  end.

(** [getters[name]]: a getter of the store, else what the [getters] object
    inherits; [None] is [undefined]. *)
Definition read_getter (cfg : Settings) (st : State) (name : string) : option GetterValue :=
  match getters cfg !! name with
  | Some g => Some (getter_value g st)
  | None => GVInherited <$> Object_prototype !! name
  end.

(** [getJobsByGroupName: (state, getters) => (groupName) => getters[groupName]] *)
Definition getJobsByGroupName (cfg : Settings) (st : State) (groupName : string)
    : option GetterValue :=
  read_getter cfg st groupName.

(** [stat[name]] on the counter object. *)
Definition stat_property (stat : gmap string num) (name : string) : option Property :=
  match stat !! name with
  | Some v => Some (PValue v)
  | None => PObject <$> Object_prototype !! name
  end.

(** [stat[name]] when a job array sits under ['stat'] (a group of that
    name): its length, a job at an index, or what arrays inherit. *)
Definition array_property (l : list Job) (name : string) : option Property :=
  if decide (name = "length") then Some (PValue (Int (Z.of_nat (length l))))
  else if bool_decide (name ∈ (pretty <$> seq 0 (length l)))
       then Some (PObject "[object Object]")
       else PObject <$> Array_prototype !! name.

(** [getStateCounter: (state) => (stateName) => ...] *)
Definition getStateCounter (st : State) (stateName : list string) : num :=
  match queue st !! "stat" with
  | None => Int 0
  | Some (QStat stat) =>
      fold_left (λ previousValue currentItem,
                   num_add previousValue (or_zero (stat_property stat currentItem)))
        stateName (Int 0)
  | Some (QJobs l) =>
      fold_left (λ previousValue currentItem,
                   num_add previousValue (or_zero (array_property l currentItem)))
        stateName (Int 0)
  end.

(** ** An example configuration and example data *)

Definition example_jobStates : gmap string string :=
  list_to_map [("pending", "waiting"); ("deferred", "waiting"); ("failed", "waiting");
               ("running", "running");
               ("error", "stopped"); ("inactive", "stopped"); ("killed", "stopped")].

Definition example_settings : Settings :=
  {| jobStates := example_jobStates;
     jobGroups := ["waiting"; "running"; "stopped"] |}.

Definition job_pending : Job := mkJob "pending" 2 [].
Definition job_running : Job := mkJob "running" 5 [("name", "a")].
Definition job_zombie : Job := mkJob "zombie" 3 [].

Definition example_jobs : list Job := [job_pending; job_zombie; job_running].

Definition summary_msg (created : string) : Message :=
  {| msg_name := "summary"; msg_created := created; msg_data := example_jobs |}.

Definition ping_msg : Message :=
  {| msg_name := "ping"; msg_created := ""; msg_data := [] |}.

Definition state_with_queue : State :=
  fst (SOCKET_ONMESSAGE example_settings (initial_state, initial_env) (summary_msg "t0")).

Definition state_reconnect_failed : State :=
  fst (SOCKET_RECONNECT_ERROR (initial_state, initial_env)).

Definition configured_jobs : list Job := [job_pending; job_running; job_pending].

Definition job_constructor : Job := mkJob "constructor" 1 [].

Definition stat_settings : Settings :=
  {| jobStates := <["paused" := "stat"]> example_jobStates;
     jobGroups := ["waiting"; "running"; "stopped"; "stat"] |}.

Definition job_paused : Job := mkJob "paused" 4 [].

(** ** Specification-side notions *)

(** The bucket the specification assigns to a job state: the configured
    group, or ['other'] for a state that is not configured. *)
Definition configured_group (cfg : Settings) (jobState : string) : string :=
  match jobStates cfg !! jobState with
  | Some g => g
  | None => "other"
  end.

(** The sum of the weights [n] of a list of jobs. *)
Definition weight_sum (l : list Job) : Z :=
  foldr (λ j acc, job_n j + acc) 0 l.

(** The sum of all entries of a counter object. *)
Definition stat_total (stat : gmap string num) : num :=
  map_fold (λ _ v acc, num_add v acc) (Int 0) stat.

(** The jobs of a list that carry a given state, and those of a given
    group. *)
Definition jobs_in_state (s : string) (arr : list Job) : list Job :=
  filter (λ j, job_state j = s) arr.

Definition jobs_in_group (cfg : Settings) (g : string) (arr : list Job) : list Job :=
  filter (λ j, group_of cfg (job_state j) = g) arr.

(** The most recent open or close event of a sequence is an open event:
    some open event is followed by neither an open nor a close event. *)
Definition last_open_close_is_open (evs : list Event) : Prop :=
  ∃ pre currentTarget post,
    evs = (pre ++ OnOpen currentTarget :: post)%list
    ∧ Forall (λ e, is_open_close e = false) post.

(** The largest integer up to which every integer is a double. *)
Definition MAX_SAFE_INTEGER : Z := 9007199254740991.

(** Weights that are counts and add up exactly: none is negative and
    together they do not exceed [MAX_SAFE_INTEGER]. *)
Definition safe_weights (arr : list Job) : Prop :=
  Forall (λ j, 0 ≤ job_n j)%Z arr ∧ (weight_sum arr ≤ MAX_SAFE_INTEGER)%Z.

(** A name that objects do not inherit from [Object.prototype]. *)
Definition ordinary (name : string) : Prop := Object_prototype !! name = None.

(** No job of a list carries a state with an inherited name. *)
Definition ordinary_states (arr : list Job) : Prop :=
  Forall (λ j, ordinary (job_state j)) arr.

(** A counter as the grouping leaves it for ordinary states and safe
    weights: a count or [NaN]. *)
Definition is_count (v : num) : Prop :=
  v = NaN ∨ ∃ z, v = Int z ∧ (0 ≤ z)%Z.

(** The integer held by a counter, [0] for anything else. *)
Definition count_value (v : num) : Z :=
  match v with
  | Int z => z
  | _ => 0
  end.

(** The exact sum of the integers held by a counter object. *)
Definition exact_total (stat : gmap string num) : Z :=
  map_fold (λ _ v acc, count_value v + acc) 0 stat.




(** The jobs listed in the buckets of a grouped view, bucket after
    bucket. *)
Definition view_jobs (view : gmap string QueueValue) : list Job :=
  map_fold (λ _ v acc, match v with
                       | QJobs l => (l ++ acc)%list
                       | QStat _ => acc
                       end) [] view.

(** The number of jobs listed in the buckets of a grouped view. *)
Definition view_job_count (view : gmap string QueueValue) : nat :=
  map_fold (λ _ v acc, match v with
                       | QJobs l => (length l + acc)%nat
                       | QStat _ => acc
                       end) 0%nat view.



(** Every job of a list carries a configured state. *)
Definition all_configured (cfg : Settings) (arr : list Job) : Prop :=
  Forall (λ j, is_Some (jobStates cfg !! job_state j)) arr.

(** The parts of an event that the store keeps or acts on. *)
Definition summary_of (e : Event) : option Message :=
  match e with
  | OnMessage m => if decide (msg_name m = "summary") then Some m else None
  | _ => None
  end.

Definition message_of (e : Event) : option Message :=
  match e with
  | OnMessage m => Some m
  | _ => None
  end.

Definition open_target (e : Event) : option nat :=
  match e with
  | OnOpen currentTarget => Some currentTarget
  | _ => None
  end.

Definition is_logged (e : Event) : bool :=
  match e with
  | OnError | Reconnect _ => true
  | _ => false
  end.

(** * Theorems *)

(** ** The grouping loop *)

Section Grouping.
Context (cfg : Settings).

Lemma group_loop_snoc (arr : list Job) (job : Job) :
  group_loop cfg (arr ++ [job]) = group_step cfg (group_loop cfg arr) job.
Proof. unfold group_loop. by rewrite fold_left_app. Qed.

Lemma weight_sum_snoc (l : list Job) (job : Job) :
  weight_sum (l ++ [job]) = weight_sum l + job_n job.
Proof.
  induction l as [|j l IH]; simpl; [lia|].
  unfold weight_sum in *. simpl. rewrite IH. lia.
Qed.

(** Every key of [groupsDict] holds the jobs of that group, in the order
    of the input; a group without jobs has no key. *)
Lemma groupsDict_lookup (arr : list Job) (g : string) :
  (group_loop cfg arr).1 !! g =
    match jobs_in_group cfg g arr with
    | [] => None
    | l => Some l
    end.
Proof.
  induction arr as [|job arr IH] using rev_ind.
  - unfold group_loop. simpl. apply lookup_empty.
  - rewrite group_loop_snoc. unfold jobs_in_group in *. rewrite filter_app.
    destruct (group_loop cfg arr) as [groupsDict initialState] eqn:E.
    simpl in *.
    destruct (decide (group_of cfg (job_state job) = g)) as [Hg|Hg].
    + rewrite filter_cons_True, filter_nil, Hg by done.
      rewrite lookup_insert_eq, IH.
      by destruct (filter _ arr).
    + rewrite filter_cons_False, filter_nil, app_nil_r by done.
      by rewrite lookup_insert_ne.
Qed.

(** *** Exact sums *)

Lemma round_double_safe (z : Z) :
  (0 ≤ z ≤ MAX_SAFE_INTEGER)%Z → round_double z = Int z.
Proof.
  intros [Hz0 Hz]. unfold round_double. rewrite decide_True; [done|].
  rewrite Z.abs_eq by done.
  destruct (decide (z = 0)) as [->|Hne]; [done|].
  assert (Z.log2 z < 53)%Z; [|lia].
  apply Z.log2_lt_pow2; [lia|]. unfold MAX_SAFE_INTEGER in Hz.
  change (2 ^ 53)%Z with 9007199254740992%Z. lia.
Qed.

Lemma round_double_cases (z : Z) :
  (∃ z', round_double z = Int z') ∨ (∃ b, round_double z = Infinity b).
Proof. unfold round_double. repeat case_decide; eauto. Qed.

Lemma num_add_NaN_number (z : Z) : num_add NaN (js_number z) = NaN.
Proof.
  unfold js_number. by destruct (round_double_cases z) as [[z' ->]|[b ->]].
Qed.

Lemma undefined_add_number (z : Z) : undefined_add (js_number z) = NaN.
Proof.
  unfold js_number. by destruct (round_double_cases z) as [[z' ->]|[b ->]].
Qed.

Lemma num_add_safe (x y : Z) :
  (0 ≤ x)%Z → (0 ≤ y)%Z → (x + y ≤ MAX_SAFE_INTEGER)%Z →
  num_add (Int x) (js_number y) = Int (x + y).
Proof.
  intros Hx Hy Hxy. unfold js_number.
  rewrite (round_double_safe y) by lia. simpl. apply round_double_safe. lia.
Qed.

Lemma weight_sum_nonneg (l : list Job) :
  Forall (λ j, 0 ≤ job_n j)%Z l → (0 ≤ weight_sum l)%Z.
Proof.
  unfold weight_sum. induction 1 as [|j l Hj _ IH]; simpl; lia.
Qed.

Lemma weight_sum_filter (P : Job → Prop) `{!∀ j, Decision (P j)} (l : list Job) :
  Forall (λ j, 0 ≤ job_n j)%Z l →
  (0 ≤ weight_sum (filter P l) ≤ weight_sum l)%Z.
Proof.
  unfold weight_sum. induction 1 as [|j l Hj _ IH]; [done|].
  rewrite filter_cons. case_decide; simpl; lia.
Qed.

Lemma safe_weights_snoc (arr : list Job) (job : Job) :
  safe_weights (arr ++ [job]) →
  safe_weights arr ∧ (0 ≤ job_n job)%Z.
Proof.
  intros [[Harr Hjob]%Forall_app Hsum]. rewrite weight_sum_snoc in Hsum.
  inversion Hjob as [|? ? Hn _]; subst.
  pose proof (weight_sum_nonneg arr Harr).
  repeat split; [done|lia|done].
Qed.

(** *** One turn of the loop on the counters *)

Lemma group_step_other
    (groupsDict : gmap string (list Job)) (initialState : gmap string num)
    (job : Job) (s : string) :
  job_state job ≠ s →
  (group_step cfg (groupsDict, initialState) job).2 !! s = initialState !! s.
Proof.
  intros Hs. unfold group_step. cbn [snd].
  destruct (initialState !! job_state job).
  { by rewrite lookup_insert_ne. }
  destruct (Object_prototype !! job_state job).
  - case_decide; [done|]. by rewrite lookup_insert_ne.
  - by rewrite lookup_insert_ne.
Qed.

Lemma group_step_own
    (groupsDict : gmap string (list Job)) (initialState : gmap string num)
    (job : Job) (v : num) :
  initialState !! job_state job = Some v →
  (group_step cfg (groupsDict, initialState) job).2 !! job_state job
  = Some (num_add v (js_number (job_n job))).
Proof.
  intros Hv. unfold group_step. cbn [snd]. rewrite Hv. apply lookup_insert_eq.
Qed.

Lemma group_step_fresh
    (groupsDict : gmap string (list Job)) (initialState : gmap string num)
    (job : Job) :
  initialState !! job_state job = None →
  ordinary (job_state job) →
  (group_step cfg (groupsDict, initialState) job).2 !! job_state job = Some NaN.
Proof.
  intros Hv Ho. unfold group_step. cbn [snd]. rewrite Hv, Ho.
  by rewrite lookup_insert_eq, undefined_add_number.
Qed.

(** With safe weights the counter of a configured state is the sum of the
    weights of the jobs in that state. *)
Lemma initialState_lookup_configured (arr : list Job) (s g : string) :
  safe_weights arr →
  jobStates cfg !! s = Some g →
  (group_loop cfg arr).2 !! s = Some (Int (weight_sum (jobs_in_state s arr))).
Proof.
  intros Hsafe Hs. induction arr as [|job arr IH] using rev_ind.
  - unfold group_loop, createObjectWithDefaultValues. simpl.
    by rewrite lookup_fmap, Hs.
  - apply safe_weights_snoc in Hsafe as Hsnoc. destruct Hsnoc as [Harr Hn].
    specialize (IH Harr). rewrite group_loop_snoc.
    unfold jobs_in_state in *. rewrite filter_app.
    destruct (group_loop cfg arr) as [groupsDict initialState] eqn:E.
    cbn [snd] in IH.
    destruct (decide (job_state job = s)) as [Hjs|Hjs].
    + rewrite filter_cons_True, filter_nil by done. subst s.
      rewrite (group_step_own _ _ _ _ IH), weight_sum_snoc. f_equal.
      destruct Harr as [Hnn Hsum], Hsafe as [_ Hsum'].
      rewrite weight_sum_snoc in Hsum'.
      pose proof (weight_sum_filter (λ j, job_state j = job_state job) arr Hnn).
      apply num_add_safe; lia.
    + rewrite filter_cons_False, filter_nil, app_nil_r by done.
      by rewrite group_step_other.
Qed.

(** A state that is neither configured nor inherited has no counter until
    a job carries it, and [NaN] from then on. *)
Lemma initialState_lookup_other (arr : list Job) (s : string) :
  jobStates cfg !! s = None →
  ordinary s →
  (group_loop cfg arr).2 !! s =
    match jobs_in_state s arr with
    | [] => None
    | _ => Some NaN
    end.
Proof.
  intros Hs Ho. induction arr as [|job arr IH] using rev_ind.
  - unfold group_loop, createObjectWithDefaultValues. simpl.
    by rewrite lookup_fmap, Hs.
  - rewrite group_loop_snoc. unfold jobs_in_state in *. rewrite filter_app.
    destruct (group_loop cfg arr) as [groupsDict initialState] eqn:E.
    cbn [snd] in IH.
    destruct (decide (job_state job = s)) as [Hjs|Hjs].
    + rewrite filter_cons_True, filter_nil by done. subst s.
      destruct (filter _ arr) as [|j l]; cbn [app].
      * by rewrite group_step_fresh.
      * by rewrite (group_step_own _ _ _ _ IH), num_add_NaN_number.
    + rewrite filter_cons_False, filter_nil, app_nil_r by done.
      by rewrite group_step_other.
Qed.

(** With safe weights and without inherited state names, the counter of a
    configured state is the sum of the weights of the jobs in that state; a
    state that is not configured has no counter until a job carries it, and
    [NaN] from then on. *)
Lemma initialState_lookup (arr : list Job) (s : string) :
  safe_weights arr →
  ordinary_states arr →
  (group_loop cfg arr).2 !! s =
    match jobStates cfg !! s with
    | Some _ => Some (Int (weight_sum (jobs_in_state s arr)))
    | None => match jobs_in_state s arr with
              | [] => None
              | _ => Some NaN
              end
    end.
Proof.
  intros Hsafe Hord. destruct (jobStates cfg !! s) as [g|] eqn:Hs.
  { by apply (initialState_lookup_configured arr s g). }
  destruct (Object_prototype !! s) as [text|] eqn:Ho.
  - assert (Hnone : jobs_in_state s arr = []).
    { unfold jobs_in_state. destruct (filter _ arr) as [|j l] eqn:E; [done|].
      assert (Hj : j ∈ filter (λ j, job_state j = s) arr) by (rewrite E; by left).
      apply list_elem_of_filter in Hj as [Hjs Hj].
      unfold ordinary_states in Hord. rewrite Forall_forall in Hord.
      specialize (Hord j Hj). unfold ordinary in Hord. congruence. }
    rewrite Hnone. clear Hsafe Hord.
    induction arr as [|job arr IH] using rev_ind.
    + unfold group_loop, createObjectWithDefaultValues. simpl.
      by rewrite lookup_fmap, Hs.
    + unfold jobs_in_state in *. rewrite filter_app in Hnone.
      apply app_eq_nil in Hnone as [Harr Hjob].
      rewrite group_loop_snoc.
      destruct (group_loop cfg arr) as [groupsDict initialState] eqn:E.
      rewrite group_step_other; [by apply IH|].
      intros Hjs. by rewrite filter_cons_True in Hjob.
  - by apply initialState_lookup_other.
Qed.

(** The keys of the grouped view: every group with at least one job holds
    exactly its jobs; ['stat'] holds the counters unless a group of that
    name has jobs; there is no other key. *)
Lemma groupDataAndJobStat_lookup (created : string) (arr : list Job) (g : string) :
  groupDataAndJobStat cfg created arr !! g =
    match jobs_in_group cfg g arr with
    | [] => if decide (g = "stat") then Some (QStat (group_loop cfg arr).2) else None
    | l => Some (QJobs l)
    end.
Proof.
  unfold groupDataAndJobStat, spread_result.
  pose proof (groupsDict_lookup arr g) as Hl.
  destruct (group_loop cfg arr) as [groupsDict initialState]. simpl in *.
  rewrite lookup_union, lookup_fmap, Hl.
  destruct (jobs_in_group cfg g arr); simpl.
  - case_decide as Hg.
    + subst g. by rewrite lookup_singleton_eq.
    + by rewrite lookup_singleton_ne.
  - by destruct ({[ "stat" := QStat initialState ]} !! g).
Qed.

(** As long as no group named ['stat'] has jobs, the view holds the
    counters under ['stat'], and the counter of a configured state is the
    sum of the weights of the jobs in that state. *)
Lemma stat_entry_of_configured_state
    (created : string) (arr : list Job) (s g : string) :
  safe_weights arr →
  jobStates cfg !! s = Some g →
  jobs_in_group cfg "stat" arr = [] →
  ∃ stat, groupDataAndJobStat cfg created arr !! "stat" = Some (QStat stat)
          ∧ stat !! s = Some (Int (weight_sum (jobs_in_state s arr))).
Proof.
  intros Hsafe Hs Hstat. exists (group_loop cfg arr).2. split.
  - by rewrite groupDataAndJobStat_lookup, Hstat.
  - by apply (initialState_lookup_configured arr s g).
Qed.

(** With group names that are not empty, [jobStates[s] || 'other'] is the
    configured group of a state [s] that has no inherited name. *)
Lemma group_of_configured (s : string) :
  map_Forall (λ _ g, g ≠ "") (jobStates cfg) →
  ordinary s →
  group_of cfg s = configured_group cfg s.
Proof.
  intros Hne Ho. unfold group_of, configured_group.
  destruct (jobStates cfg !! s) as [g|] eqn:E; [|by rewrite Ho].
  case_decide as Hg; [|done]. by destruct (Hne s g E).
Qed.

End Grouping.

(** ** Claims about the grouping *)

Lemma filter_ext_elem {A : Type} (P Q : A → Prop)
    `{!∀ x, Decision (P x)} `{!∀ x, Decision (Q x)} (l : list A) :
  (∀ x, x ∈ l → P x ↔ Q x) → filter P l = filter Q l.
Proof.
  induction l as [|x l IH]; intros Hpq; [done|].
  rewrite !filter_cons. rewrite IH by (intros y Hy; apply Hpq; by right).
  destruct (Hpq x) as [H1 H2]; [by left|].
  destruct (decide (P x)), (decide (Q x)); tauto || done.
Qed.

(** With group names that are not empty and without inherited state
    names, every job of the list lies in the bucket of its configured
    group (or of ['other'] when its state is not configured), that bucket
    holds exactly the jobs of the list that belong to it, and the job lies
    in no bucket of another name. *)
Lemma buckets_of_ordinary_jobs
    (cfg : Settings) (created : string) (arr : list Job) (job : Job) :
  map_Forall (λ _ g, g ≠ "") (jobStates cfg) →
  ordinary_states arr →
  job ∈ arr →
  let view := groupDataAndJobStat cfg created arr in
  let target := configured_group cfg (job_state job) in
  view !! target
    = Some (QJobs (filter (λ j, configured_group cfg (job_state j) = target) arr))
  ∧ job ∈ filter (λ j, configured_group cfg (job_state j) = target) arr
  ∧ (∀ g l, view !! g = Some (QJobs l) → job ∈ l → g = target)
  ∧ (∀ s g, jobStates cfg !! s = Some g → configured_group cfg s = g)
  ∧ (∀ s, jobStates cfg !! s = None → configured_group cfg s = "other").
Proof.
  intros Hne Hord Hin view target.
  assert (Hfilter : ∀ g, jobs_in_group cfg g arr
                         = filter (λ j, configured_group cfg (job_state j) = g) arr).
  { intros g. unfold jobs_in_group. apply filter_ext_elem.
    unfold ordinary_states in Hord. rewrite Forall_forall in Hord.
    intros j Hj. by rewrite group_of_configured by auto. }
  assert (Hjob : job ∈ filter (λ j, configured_group cfg (job_state j) = target) arr).
  { apply list_elem_of_filter. by split. }
  repeat split.
  - unfold view. rewrite groupDataAndJobStat_lookup, Hfilter.
    destruct (filter _ arr) eqn:E; [|done].
    by apply elem_of_nil in Hjob.
  - done.
  - intros g l Hl Hjl. unfold view in Hl.
    rewrite groupDataAndJobStat_lookup, Hfilter in Hl.
    destruct (filter (λ j, configured_group cfg (job_state j) = g) arr) eqn:E.
    + destruct (decide (g = "stat")); discriminate.
    + injection Hl as <-. rewrite <- E in Hjl.
      apply list_elem_of_filter in Hjl. by destruct Hjl.
  - intros s g Hs. unfold configured_group. by rewrite Hs.
  - intros s Hs. unfold configured_group. by rewrite Hs.
Qed.

(** C1: a job whose state is not configured but is the name of a property
    that [jobStates] inherits does not land in ['other']: with the example
    settings, ['constructor'] is no key of [jobStates], yet the job with
    that state is filed under the string of the inherited function, and
    the view has no bucket ['other']. *)
Theorem C1_inherited_state_misses_other :
  jobStates example_settings !! "constructor" = None
  ∧ groupDataAndJobStat example_settings "t0" [job_pending; job_constructor]
      !! "function Object() { [native code] }" = Some (QJobs [job_constructor])
  ∧ groupDataAndJobStat example_settings "t0" [job_pending; job_constructor]
      !! "other" = None
  ∧ groupDataAndJobStat example_settings "t0" [job_pending; job_constructor]
      !! "waiting" = Some (QJobs [job_pending]).
Proof. repeat split; by vm_compute. Qed.

(** C2: the counter of a state that is not configured is [NaN], not the sum
    of the weights of its jobs, and the sum of all counters is [NaN] as
    well: with the example settings and the jobs [pending (2)], [zombie (3)]
    and [running (5)], the entry of ['zombie'] is [NaN] while the zombie
    weights sum to [3], and the counters add up to [NaN] while all weights
    sum to [10]. *)
Theorem C2_unknown_state_counter_is_NaN :
  ∃ stat,
    groupDataAndJobStat example_settings "t0" example_jobs !! "stat" = Some (QStat stat)
    ∧ stat !! "zombie" = Some NaN
    ∧ weight_sum (jobs_in_state "zombie" example_jobs) = 3
    ∧ stat_total stat = NaN
    ∧ weight_sum example_jobs = 10.
Proof.
  exists (group_loop example_settings example_jobs).2.
  repeat split; by vm_compute.
Qed.

(** ** Claims about the socket mutations *)

Section Mutations.
Context (cfg : Settings).

Lemma run_snoc (evs : list Event) (e : Event) (w : State * Env) :
  run cfg (evs ++ [e]) w = commit cfg (run cfg evs w) e.
Proof. unfold run. by rewrite fold_left_app. Qed.

(** What one event does to each part of the store state. *)
Lemma commit_isConnected (w : State * Env) (e : Event) :
  isConnected (socket (commit cfg w e).1) =
    match e with
    | OnOpen _ => true
    | OnClose => false
    | _ => isConnected (socket w.1)
    end.
Proof.
  destruct w as [st env], e; simpl; try done.
  unfold SOCKET_ONMESSAGE. by case_decide.
Qed.

Lemma commit_reconnectError (w : State * Env) (e : Event) :
  reconnectError (socket (commit cfg w e).1) =
    match e with
    | ReconnectError => true
    | _ => reconnectError (socket w.1)
    end.
Proof.
  destruct w as [st env], e; simpl; try done.
  unfold SOCKET_ONMESSAGE. by case_decide.
Qed.

Lemma commit_queue (w : State * Env) (e : Event) :
  is_summary e = false →
  queue (commit cfg w e).1 = queue w.1.
Proof.
  destruct w as [st env], e; simpl; try done.
  intros Hm. apply bool_decide_eq_false in Hm.
  unfold SOCKET_ONMESSAGE. by case_decide.
Qed.

Lemma run_queue (evs : list Event) (w : State * Env) :
  Forall (λ e, is_summary e = false) evs →
  queue (run cfg evs w).1 = queue w.1.
Proof.
  induction evs as [|e evs IH] using rev_ind; [done|].
  intros [Hevs He]%Forall_app. rewrite run_snoc.
  rewrite commit_queue; [by apply IH|].
  by inversion He.
Qed.

End Mutations.

(** C3 (as amended): a message named ['summary'] replaces the queue view by
    the grouping of its own job list, whatever the store held before. *)
Theorem C3_summary_replaces_queue
    (cfg : Settings) (w1 w2 : State * Env) (m : Message) :
  msg_name m = "summary" →
  queue (SOCKET_ONMESSAGE cfg w1 m).1 = groupDataAndJobStat cfg (msg_created m) (msg_data m)
  ∧ queue (SOCKET_ONMESSAGE cfg w1 m).1 = queue (SOCKET_ONMESSAGE cfg w2 m).1.
Proof.
  intros Hm. destruct w1 as [st1 env1], w2 as [st2 env2].
  unfold SOCKET_ONMESSAGE. by rewrite !decide_True.
Qed.

Lemma C3_witness :
  msg_name (summary_msg "t1") = "summary"
  ∧ queue (SOCKET_ONMESSAGE example_settings (state_with_queue, initial_env)
             (summary_msg "t1")).1
    = queue (SOCKET_ONMESSAGE example_settings (initial_state, initial_env)
               (summary_msg "t1")).1.
Proof.
  split; [reflexivity|].
  exact (proj2 (C3_summary_replaces_queue example_settings
                  (state_with_queue, initial_env) (initial_state, initial_env)
                  (summary_msg "t1") eq_refl)).
Defined.

(** C3 (as stated) fails: a message named ['ping'] leaves the stored queue
    in place, so the resulting queue depends on the prior state and not on
    the message alone. *)
Lemma C3_counterexample :
  queue (SOCKET_ONMESSAGE example_settings (state_with_queue, initial_env) ping_msg).1
    = queue state_with_queue
  ∧ queue (SOCKET_ONMESSAGE example_settings (initial_state, initial_env) ping_msg).1 = ∅
  ∧ queue (SOCKET_ONMESSAGE example_settings (state_with_queue, initial_env) ping_msg).1
    ≠ queue (SOCKET_ONMESSAGE example_settings (initial_state, initial_env) ping_msg).1.
Proof.
  split; [reflexivity|]. split; [reflexivity|].
  intros H. apply (f_equal (λ q, q !! "other")) in H.
  vm_compute in H. discriminate H.
Qed.

(** C4: a socket-open event sends one object on the socket of the event,
    the object is [{ type: 'interest', data: ['queue'] }], and
    [isConnected] is true afterwards. *)
Theorem C4_onopen_subscribes (st : State) (env : Env) (currentTarget : nat) :
  sent (SOCKET_ONOPEN (st, env) currentTarget).2
    = (sent env ++ [(currentTarget,
                     {| out_type := "interest"; out_data := ["queue"] |})])%list
  ∧ vue_socket (SOCKET_ONOPEN (st, env) currentTarget).2 = Some currentTarget
  ∧ isConnected (socket (SOCKET_ONOPEN (st, env) currentTarget).1) = true.
Proof. done. Qed.

(** C5: a message whose name is not ['summary'] leaves the queue view, the
    two flags and everything outside of the state as they were; only the
    stored message changes, to the message handled. *)
Theorem C5_other_message_keeps_queue
    (cfg : Settings) (st : State) (env : Env) (m : Message) :
  msg_name m ≠ "summary" →
  queue (SOCKET_ONMESSAGE cfg (st, env) m).1 = queue st
  ∧ isConnected (socket (SOCKET_ONMESSAGE cfg (st, env) m).1) = isConnected (socket st)
  ∧ reconnectError (socket (SOCKET_ONMESSAGE cfg (st, env) m).1) = reconnectError (socket st)
  ∧ message (socket (SOCKET_ONMESSAGE cfg (st, env) m).1) = Some m
  ∧ (SOCKET_ONMESSAGE cfg (st, env) m).2 = env.
Proof.
  intros Hm. unfold SOCKET_ONMESSAGE. by rewrite decide_False.
Qed.

Lemma C5_witness :
  msg_name ping_msg ≠ "summary"
  ∧ queue (SOCKET_ONMESSAGE example_settings (state_with_queue, initial_env) ping_msg).1
    = queue state_with_queue.
Proof.
  assert (H : msg_name ping_msg ≠ "summary") by (vm_compute; discriminate).
  split; [exact H|].
  exact (proj1 (C5_other_message_keeps_queue example_settings
                  state_with_queue initial_env ping_msg H)).
Defined.

(** C6 (as amended): no mutation resets [reconnectError]; once it is true
    it is still true after the reconnect mutation, after a socket-open
    mutation that follows it, and after every sequence of socket events. *)
Theorem C6_reconnectError_is_never_reset
    (cfg : Settings) (st : State) (env : Env) (count currentTarget : nat)
    (evs : list Event) :
  reconnectError (socket st) = true →
  reconnectError (socket (SOCKET_RECONNECT (st, env) count).1) = true
  ∧ reconnectError
      (socket (SOCKET_ONOPEN (SOCKET_RECONNECT (st, env) count) currentTarget).1) = true
  ∧ reconnectError (socket (run cfg evs (st, env)).1) = true.
Proof.
  intros Hflag. repeat split; try done.
  induction evs as [|e evs IH] using rev_ind; [done|].
  rewrite run_snoc, commit_reconnectError. by destruct e.
Qed.

Lemma C6_witness :
  reconnectError (socket state_reconnect_failed) = true
  ∧ reconnectError
      (socket (run example_settings [Reconnect 1; OnOpen 0; OnMessage (summary_msg "t0")]
                 (state_reconnect_failed, initial_env)).1) = true.
Proof.
  split; [reflexivity|].
  exact (proj2 (proj2 (C6_reconnectError_is_never_reset example_settings
                         state_reconnect_failed initial_env 1 0
                         [Reconnect 1; OnOpen 0; OnMessage (summary_msg "t0")]
                         eq_refl))).
Defined.

(** C6 (as stated) fails: in the state left by a reconnect-error event the
    flag is true, and it is not false after the reconnect mutation, nor
    after the socket-open mutation that follows. *)
Lemma C6_counterexample :
  reconnectError (socket state_reconnect_failed) = true
  ∧ reconnectError
      (socket (SOCKET_RECONNECT (state_reconnect_failed, initial_env) 1).1) ≠ false
  ∧ reconnectError
      (socket (SOCKET_ONOPEN
                 (SOCKET_RECONNECT (state_reconnect_failed, initial_env) 1) 0).1) ≠ false.
Proof. repeat split; vm_compute; discriminate. Qed.

(** C7: a reconnect-error event sets [reconnectError] to true and leaves
    the queue, [isConnected], the stored message and everything outside of
    the state as they were. *)
Theorem C7_reconnect_error_sets_flag_only (st : State) (env : Env) :
  reconnectError (socket (SOCKET_RECONNECT_ERROR (st, env)).1) = true
  ∧ queue (SOCKET_RECONNECT_ERROR (st, env)).1 = queue st
  ∧ isConnected (socket (SOCKET_RECONNECT_ERROR (st, env)).1) = isConnected (socket st)
  ∧ message (socket (SOCKET_RECONNECT_ERROR (st, env)).1) = message (socket st)
  ∧ (SOCKET_RECONNECT_ERROR (st, env)).2 = env.
Proof. done. Qed.

(** ** The connection flag along a run *)

Lemma snoc_eq_middle {A : Type} (l pre post : list A) (x y : A) :
  (l ++ [x] = pre ++ y :: post)%list →
  (post = [] ∧ l = pre ∧ x = y)
  ∨ (∃ post', post = (post' ++ [x])%list ∧ l = (pre ++ y :: post')%list).
Proof.
  destruct post as [|z post _] using rev_ind.
  - intros H. apply (app_inj_tail l pre x y) in H. left. by destruct H.
  - intros H. right. exists post.
    change (pre ++ y :: post ++ [z])%list with (pre ++ (y :: post) ++ [z])%list in H.
    rewrite app_assoc in H. apply app_inj_tail in H. destruct H as [-> ->]. done.
Qed.

Lemma last_open_close_is_open_nil : ¬ last_open_close_is_open [].
Proof. intros (pre & t & post & H & _). by destruct pre. Qed.

Lemma last_open_close_is_open_snoc (evs : list Event) (e : Event) :
  last_open_close_is_open (evs ++ [e]) ↔
    match e with
    | OnOpen _ => True
    | OnClose => False
    | _ => last_open_close_is_open evs
    end.
Proof.
  split.
  - intros (pre & t & post & H & Hpost).
    apply snoc_eq_middle in H as [(-> & -> & ->)|(post' & -> & ->)]; [done|].
    apply Forall_app in Hpost as [Hpost' He]. inversion He as [|? ? Hk _]; subst.
    destruct e; try done; by exists pre, t, post'.
  - destruct e as [t| | | | |]; try done.
    + intros _. by exists evs, t, [].
    + intros (pre & t & post & -> & Hpost). exists pre, t, (post ++ [OnError])%list.
      split; [by rewrite <- app_assoc|]. apply Forall_app. by split; [|constructor].
    + intros (pre & t & post & -> & Hpost). exists pre, t, (post ++ [OnMessage m])%list.
      split; [by rewrite <- app_assoc|]. apply Forall_app. by split; [|constructor].
    + intros (pre & t & post & -> & Hpost). exists pre, t, (post ++ [Reconnect count])%list.
      split; [by rewrite <- app_assoc|]. apply Forall_app. by split; [|constructor].
    + intros (pre & t & post & -> & Hpost). exists pre, t, (post ++ [ReconnectError])%list.
      split; [by rewrite <- app_assoc|]. apply Forall_app. by split; [|constructor].
Qed.

(** C8: along every sequence of socket events from the initial state,
    [isConnected] is true exactly when the most recent open or close event
    was an open event; it is false initially, true after an open event,
    false after a close event and unchanged by every other event. *)
Theorem C8_isConnected_tracks_last_open_close
    (cfg : Settings) (env : Env) (evs : list Event) :
  (isConnected (socket (run cfg evs (initial_state, env)).1) = true
     ↔ last_open_close_is_open evs)
  ∧ isConnected (socket initial_state) = false
  ∧ (∀ w currentTarget, isConnected (socket (commit cfg w (OnOpen currentTarget)).1) = true)
  ∧ (∀ w, isConnected (socket (commit cfg w OnClose).1) = false)
  ∧ (∀ w e, is_open_close e = false →
            isConnected (socket (commit cfg w e).1) = isConnected (socket w.1)).
Proof.
  repeat split.
  - induction evs as [|e evs IH] using rev_ind.
    + intros H. discriminate H.
    + rewrite run_snoc, commit_isConnected. intros H.
      apply last_open_close_is_open_snoc.
      destruct e; try done; by apply IH.
  - induction evs as [|e evs IH] using rev_ind.
    + intros H. by apply last_open_close_is_open_nil in H.
    + rewrite run_snoc, commit_isConnected. intros H.
      apply last_open_close_is_open_snoc in H.
      destruct e; try done; by apply IH.
  - intros w t. by rewrite commit_isConnected.
  - intros w. by rewrite commit_isConnected.
  - intros w e He. rewrite commit_isConnected. by destruct e.
Qed.

(** ** Claims about the getters *)

Lemma mapGettersJobGroups_snoc (arr : list string) (item : string) :
  mapGettersJobGroups (arr ++ [item])
  = <[item := GroupGetter item]> (mapGettersJobGroups arr).
Proof. unfold mapGettersJobGroups. by rewrite fold_left_app. Qed.

(** Every group of the list gets the getter of that group, and nothing else
    gets one. *)
Lemma mapGettersJobGroups_lookup (arr : list string) (g : string) :
  mapGettersJobGroups arr !! g
  = if decide (g ∈ arr) then Some (GroupGetter g) else None.
Proof.
  induction arr as [|item arr IH] using rev_ind.
  - rewrite decide_False by apply not_elem_of_nil. apply lookup_empty.
  - rewrite mapGettersJobGroups_snoc.
    destruct (decide (item = g)) as [->|Hne].
    + rewrite lookup_insert_eq, decide_True; [done|].
      apply elem_of_app. right. by apply list_elem_of_singleton.
    + rewrite lookup_insert_ne, IH by done.
      destruct (decide (g ∈ arr)) as [Hin|Hin].
      * rewrite decide_True; [done|]. apply elem_of_app. by left.
      * rewrite decide_False; [done|].
        intros [H|H%list_elem_of_singleton]%elem_of_app; congruence.
Qed.

Lemma getters_group_lookup (cfg : Settings) (g : string) :
  g ∈ jobGroups cfg →
  g ≠ "getJobsByGroupName" →
  g ≠ "getStateCounter" →
  getters cfg !! g = Some (GroupGetter g).
Proof.
  intros Hin H1 H2. unfold getters.
  rewrite !lookup_insert_ne, mapGettersJobGroups_lookup by done.
  by rewrite decide_True.
Qed.

Lemma getStateCounter_no_stat (st : State) (stateName : list string) :
  queue st !! "stat" = None → getStateCounter st stateName = Int 0.
Proof. intros H. unfold getStateCounter. by rewrite H. Qed.

(** C9: as long as no summary message has been handled the queue view is
    the empty object, and then the getter of every group and
    [getJobsByGroupName] at every group give the empty list, and
    [getStateCounter] gives [0] at every list of state names.  (A group
    is an entry of [jobGroups]; the two names of the other getters are not
    group names.) *)
Theorem C9_reads_before_first_summary
    (cfg : Settings) (env : Env) (evs : list Event)
    (g : string) (stateName : list string) :
  Forall (λ e, is_summary e = false) evs →
  g ∈ jobGroups cfg →
  g ≠ "getJobsByGroupName" →
  g ≠ "getStateCounter" →
  let st := (run cfg evs (initial_state, env)).1 in
  queue st = ∅
  ∧ group_getter g st = GVJobs []
  ∧ read_getter cfg st g = Some (GVJobs [])
  ∧ getJobsByGroupName cfg st g = Some (GVJobs [])
  ∧ getStateCounter st stateName = Int 0.
Proof.
  intros Hevs Hin H1 H2 st.
  assert (Hq : queue st = ∅) by (unfold st; by rewrite run_queue).
  assert (Hgg : group_getter g st = GVJobs []).
  { unfold group_getter. by rewrite Hq, lookup_empty. }
  assert (Hg : read_getter cfg st g = Some (GVJobs [])).
  { unfold read_getter. rewrite getters_group_lookup by done. simpl.
    unfold group_getter. by rewrite Hq, lookup_empty. }
  repeat split; try done.
  apply getStateCounter_no_stat. by rewrite Hq, lookup_empty.
Qed.

Lemma C9_witness :
  Forall (λ e, is_summary e = false) [OnOpen 0; OnMessage ping_msg; OnClose]
  ∧ "waiting" ∈ jobGroups example_settings
  ∧ getJobsByGroupName example_settings
      (run example_settings [OnOpen 0; OnMessage ping_msg; OnClose]
         (initial_state, initial_env)).1 "waiting" = Some (GVJobs [])
  ∧ getStateCounter
      (run example_settings [OnOpen 0; OnMessage ping_msg; OnClose]
         (initial_state, initial_env)).1 ["pending"; "zombie"] = Int 0.
Proof.
  assert (H1 : Forall (λ e, is_summary e = false) [OnOpen 0; OnMessage ping_msg; OnClose]).
  { apply (bool_decide_unpack _). vm_compute. exact I. }
  assert (H2 : "waiting" ∈ jobGroups example_settings).
  { apply (bool_decide_unpack _). vm_compute. exact I. }
  assert (H3 : "waiting" ≠ "getJobsByGroupName") by discriminate.
  assert (H4 : "waiting" ≠ "getStateCounter") by discriminate.
  split; [exact H1|]. split; [exact H2|].
  exact (proj2 (proj2 (proj2 (C9_reads_before_first_summary example_settings initial_env
                         [OnOpen 0; OnMessage ping_msg; OnClose]
                         "waiting" ["pending"; "zombie"] H1 H2 H3 H4)))).
Defined.

(** C10: the grouping does not depend on its [created] argument, and two
    summary messages with the same job list give the same queue view,
    whatever their [created] fields and whatever the store held before. *)
Theorem C10_queue_independent_of_created
    (cfg : Settings) (w1 w2 : State * Env) (m1 m2 : Message) :
  msg_name m1 = "summary" →
  msg_name m2 = "summary" →
  msg_data m1 = msg_data m2 →
  groupDataAndJobStat cfg (msg_created m1) (msg_data m1)
    = groupDataAndJobStat cfg (msg_created m2) (msg_data m2)
  ∧ queue (SOCKET_ONMESSAGE cfg w1 m1).1 = queue (SOCKET_ONMESSAGE cfg w2 m2).1.
Proof.
  intros Hm1 Hm2 Hdata. destruct w1 as [st1 env1], w2 as [st2 env2].
  unfold SOCKET_ONMESSAGE, groupDataAndJobStat.
  by rewrite !decide_True, Hdata.
Qed.

Lemma C10_witness :
  msg_name (summary_msg "t0") = "summary"
  ∧ msg_name (summary_msg "t1") = "summary"
  ∧ msg_data (summary_msg "t0") = msg_data (summary_msg "t1")
  ∧ msg_created (summary_msg "t0") ≠ msg_created (summary_msg "t1")
  ∧ queue (SOCKET_ONMESSAGE example_settings (initial_state, initial_env)
             (summary_msg "t0")).1
    = queue (SOCKET_ONMESSAGE example_settings (initial_state, initial_env)
               (summary_msg "t1")).1.
Proof.
  split; [reflexivity|]. split; [reflexivity|]. split; [reflexivity|].
  split; [vm_compute; discriminate|].
  exact (proj2 (C10_queue_independent_of_created example_settings
                  (initial_state, initial_env) (initial_state, initial_env)
                  (summary_msg "t0") (summary_msg "t1") eq_refl eq_refl eq_refl)).
Defined.

(** * Further properties of the store *)

(** ** The grouped view *)

Lemma Object_prototype_text (s text : string) :
  Object_prototype !! s = Some text → text ≠ "".
Proof.
  revert s text. change (map_Forall (λ _ text, text ≠ "") Object_prototype).
  apply (bool_decide_unpack _). vm_compute. exact I.
Qed.

Lemma group_of_range (cfg : Settings) (s : string) :
  group_of cfg s ≠ ""
  ∧ (group_of cfg s = "other"
     ∨ (∃ s', jobStates cfg !! s' = Some (group_of cfg s))
     ∨ (∃ s', Object_prototype !! s' = Some (group_of cfg s))).
Proof.
  unfold group_of. destruct (jobStates cfg !! s) as [g|] eqn:E.
  - case_decide as Hg; [split; [done|by left]|].
    split; [done|]. right. left. by exists s.
  - destruct (Object_prototype !! s) as [text|] eqn:Ho.
    + split; [by apply (Object_prototype_text s)|]. right. right. by exists s.
    + split; [done|by left].
Qed.

Lemma weight_sum_app (l1 l2 : list Job) :
  weight_sum (l1 ++ l2) = weight_sum l1 + weight_sum l2.
Proof.
  unfold weight_sum. induction l1 as [|j l1 IH]; simpl; [done|]. rewrite IH. lia.
Qed.

Lemma weight_sum_Permutation (l1 l2 : list Job) :
  l1 ≡ₚ l2 → weight_sum l1 = weight_sum l2.
Proof.
  unfold weight_sum.
  induction 1 as [|j l1 l2 _ IH|j1 j2 l|l1 l2 l3 _ IH1 _ IH2]; simpl; lia.
Qed.

Lemma jobs_in_group_nonempty (cfg : Settings) (g : string) (arr : list Job) :
  jobs_in_group cfg g arr ≠ [] ↔ ∃ job, job ∈ arr ∧ group_of cfg (job_state job) = g.
Proof.
  unfold jobs_in_group. split.
  - destruct (filter _ arr) as [|job l] eqn:E; [done|]. intros _.
    assert (Hin : job ∈ filter (λ j, group_of cfg (job_state j) = g) arr).
    { rewrite E. by left. }
    apply list_elem_of_filter in Hin as [Hg Hin]. by exists job.
  - intros (job & Hin & Hg) E.
    assert (Hjob : job ∈ filter (λ j, group_of cfg (job_state j) = g) arr).
    { by apply list_elem_of_filter. }
    rewrite E in Hjob. by apply elem_of_nil in Hjob.
Qed.

(** The view has the key ['stat'] and one key for every group that has a
    job in the list, and no other key. *)
Theorem view_keys (cfg : Settings) (created : string) (arr : list Job) (g : string) :
  is_Some (groupDataAndJobStat cfg created arr !! g)
  ↔ g = "stat" ∨ ∃ job, job ∈ arr ∧ group_of cfg (job_state job) = g.
Proof.
  rewrite groupDataAndJobStat_lookup, <- jobs_in_group_nonempty.
  destruct (jobs_in_group cfg g arr) as [|job l].
  - case_decide as Hg.
    + split; [by left|by eexists].
    + split; [by intros [? ?]|by intros [?|?]].
  - split; [by right|by eexists].
Qed.

(** A bucket of the view is never empty, holds jobs of its own group only,
    keeps them in the order of the input, and is named ['other'], by a
    group of the settings or by the string of a property that [jobStates]
    inherits, never by the empty string. *)
Theorem view_bucket_shape
    (cfg : Settings) (created : string) (arr : list Job) (g : string) (l : list Job) :
  groupDataAndJobStat cfg created arr !! g = Some (QJobs l) →
  l ≠ []
  ∧ l `sublist_of` arr
  ∧ Forall (λ job, group_of cfg (job_state job) = g) l
  ∧ g ≠ ""
  ∧ (g = "other"
     ∨ (∃ s, jobStates cfg !! s = Some g)
     ∨ (∃ s, Object_prototype !! s = Some g)).
Proof.
  rewrite groupDataAndJobStat_lookup. intros Hl.
  assert (Hne : jobs_in_group cfg g arr ≠ [] ∧ l = jobs_in_group cfg g arr).
  { destruct (jobs_in_group cfg g arr) as [|job l'].
    - destruct (decide (g = "stat")); discriminate.
    - by injection Hl as <-. }
  destruct Hne as [Hne ->].
  apply jobs_in_group_nonempty in Hne as Hjob. destruct Hjob as (job & _ & <-).
  split; [done|]. split; [apply sublist_filter|]. split.
  - apply Forall_forall. intros j Hj. unfold jobs_in_group in Hj.
    by apply list_elem_of_filter in Hj as [? _].
  - apply group_of_range.
Qed.

Lemma view_bucket_shape_witness :
  groupDataAndJobStat example_settings "t0" example_jobs !! "waiting"
    = Some (QJobs [job_pending])
  ∧ [job_pending] `sublist_of` example_jobs.
Proof.
  assert (H : groupDataAndJobStat example_settings "t0" example_jobs !! "waiting"
              = Some (QJobs [job_pending])) by (vm_compute; reflexivity).
  split; [exact H|].
  exact (proj1 (proj2 (view_bucket_shape example_settings "t0" example_jobs
                         "waiting" [job_pending] H))).
Defined.

(** The counter object of the view, when no job falls into a group named
    ['stat']: with safe weights a configured state holds the sum of the
    weights of its jobs ([0] without jobs); a state that is neither
    configured nor an inherited name is absent until a job carries it and
    holds [NaN] from then on. *)
Theorem view_stat_entries (cfg : Settings) (created : string) (arr : list Job) :
  jobs_in_group cfg "stat" arr = [] →
  ∃ stat,
    groupDataAndJobStat cfg created arr !! "stat" = Some (QStat stat)
    ∧ (safe_weights arr →
       ∀ s g, jobStates cfg !! s = Some g →
              stat !! s = Some (Int (weight_sum (jobs_in_state s arr))))
    ∧ (∀ s, jobStates cfg !! s = None → ordinary s →
            stat !! s = if decide (jobs_in_state s arr = []) then None else Some NaN).
Proof.
  intros Hstat. exists (group_loop cfg arr).2. split; [|split].
  - by rewrite groupDataAndJobStat_lookup, Hstat.
  - intros Hsafe s g Hs. by apply (initialState_lookup_configured cfg arr s g).
  - intros s Hs Ho. rewrite initialState_lookup_other by done.
    by destruct (jobs_in_state s arr).
Qed.

Lemma view_stat_entries_witness :
  jobs_in_group example_settings "stat" example_jobs = []
  ∧ safe_weights example_jobs
  ∧ ∃ stat,
      groupDataAndJobStat example_settings "t0" example_jobs !! "stat" = Some (QStat stat)
      ∧ stat !! "running" = Some (Int 5)
      ∧ stat !! "killed" = Some (Int 0)
      ∧ stat !! "zombie" = Some NaN
      ∧ stat !! "ghost" = None.
Proof.
  assert (H : jobs_in_group example_settings "stat" example_jobs = [])
    by (vm_compute; reflexivity).
  assert (Hsafe : safe_weights example_jobs).
  { split; apply (bool_decide_unpack _); vm_compute; exact I. }
  split; [exact H|]. split; [exact Hsafe|].
  destruct (view_stat_entries example_settings "t0" example_jobs H)
    as (stat & Hs & Hc & Ho).
  exists stat. split; [exact Hs|].
  rewrite (Hc Hsafe "running" "running"), (Hc Hsafe "killed" "stopped"),
    (Ho "zombie"), (Ho "ghost") by (vm_compute; reflexivity).
  repeat split; vm_compute; reflexivity.
Defined.

(** When a job falls into a group named ['stat'], that bucket takes the
    key ['stat'] and the view holds no counter object at all. *)
Theorem view_stat_overwritten (cfg : Settings) (created : string) (arr : list Job) :
  jobs_in_group cfg "stat" arr ≠ [] →
  groupDataAndJobStat cfg created arr !! "stat"
    = Some (QJobs (jobs_in_group cfg "stat" arr))
  ∧ ∀ g stat, groupDataAndJobStat cfg created arr !! g ≠ Some (QStat stat).
Proof.
  intros Hne. split.
  - rewrite groupDataAndJobStat_lookup. by destruct (jobs_in_group cfg "stat" arr).
  - intros g stat. rewrite groupDataAndJobStat_lookup.
    destruct (jobs_in_group cfg g arr) as [|job l] eqn:E; [|done].
    case_decide as Hg; [|done]. subst g. done.
Qed.

Lemma view_stat_overwritten_witness :
  jobs_in_group stat_settings "stat" [job_pending; job_paused] ≠ []
  ∧ groupDataAndJobStat stat_settings "t0" [job_pending; job_paused] !! "stat"
    = Some (QJobs [job_paused]).
Proof.
  assert (H : jobs_in_group stat_settings "stat" [job_pending; job_paused] ≠ [])
    by (vm_compute; discriminate).
  split; [exact H|].
  exact (proj1 (view_stat_overwritten stat_settings "t0" [job_pending; job_paused] H)).
Defined.

(** *** Counting the jobs of a view *)

Lemma bucket_sizes_push (m : gmap string (list Job)) (g : string) (job : Job) :
  map_fold (λ _ l acc, (length l + acc)%nat) 0%nat
    (<[g := (default [] (m !! g) ++ [job])%list]> m)
  = S (map_fold (λ _ l acc, (length l + acc)%nat) 0%nat m).
Proof.
  assert (Hcomm : ∀ (m' : gmap string (list Job)) (j1 j2 : string)
                    (z1 z2 : list Job) (y : nat),
             j1 ≠ j2 → m' !! j1 = Some z1 → m' !! j2 = Some z2 →
             (length z1 + (length z2 + y))%nat = (length z2 + (length z1 + y))%nat).
  { intros. lia. }
  destruct (m !! g) as [l|] eqn:E; simpl.
  - rewrite <- (insert_delete_id m g l E) at 2.
    rewrite <- insert_delete_eq.
    rewrite !map_fold_insert_L; try (by apply lookup_delete_eq); try (by apply Hcomm).
    rewrite length_app. simpl. lia.
  - rewrite map_fold_insert_L; [done|by apply Hcomm|done].
Qed.

Lemma groupsDict_sizes (cfg : Settings) (arr : list Job) :
  map_fold (λ _ l acc, (length l + acc)%nat) 0%nat (group_loop cfg arr).1 = length arr.
Proof.
  induction arr as [|job arr IH] using rev_ind; [done|].
  rewrite group_loop_snoc, length_app. simpl.
  destruct (group_loop cfg arr) as [groupsDict initialState]. simpl in *.
  rewrite bucket_sizes_push, IH. lia.
Qed.

Lemma spread_result_no_stat_group
    (groupsDict : gmap string (list Job)) (initialState : gmap string num) :
  groupsDict !! "stat" = None →
  spread_result groupsDict initialState
  = <["stat" := QStat initialState]> (QJobs <$> groupsDict).
Proof.
  intros Hn. apply map_eq. intros g. unfold spread_result.
  rewrite lookup_union, lookup_fmap.
  destruct (decide (g = "stat")) as [->|Hg].
  - by rewrite lookup_insert_eq, lookup_singleton_eq, Hn.
  - rewrite lookup_insert_ne, lookup_singleton_ne, lookup_fmap by done.
    by destruct (groupsDict !! g).
Qed.

Lemma spread_result_stat_group
    (groupsDict : gmap string (list Job)) (initialState : gmap string num) :
  is_Some (groupsDict !! "stat") →
  spread_result groupsDict initialState = QJobs <$> groupsDict.
Proof.
  intros [l Hl]. apply map_eq. intros g. unfold spread_result.
  rewrite lookup_union, lookup_fmap.
  destruct (decide (g = "stat")) as [->|Hg].
  - by rewrite lookup_singleton_eq, Hl.
  - rewrite lookup_singleton_ne by done. by destruct (groupsDict !! g).
Qed.

Lemma view_job_count_length (cfg : Settings) (created : string) (arr : list Job) :
  view_job_count (groupDataAndJobStat cfg created arr) = length arr.
Proof.
  unfold groupDataAndJobStat, view_job_count.
  pose proof (groupsDict_sizes cfg arr) as Hsz.
  destruct (group_loop cfg arr) as [groupsDict initialState]. simpl in Hsz.
  destruct (groupsDict !! "stat") as [l|] eqn:E.
  - rewrite spread_result_stat_group by eauto.
    by rewrite map_fold_fmap.
  - rewrite spread_result_no_stat_group by done.
    rewrite map_fold_insert_L.
    + by rewrite map_fold_fmap.
    + intros j1 j2 z1 z2 y _ _ _. destruct z1, z2; lia.
    + by rewrite lookup_fmap, E.
Qed.

Lemma bucket_jobs_insert (m : gmap string (list Job)) (g : string) (l : list Job) :
  m !! g = None →
  map_fold (λ _ l acc, (l ++ acc)%list) [] (<[g := l]> m)
  ≡ₚ (l ++ map_fold (λ _ l acc, (l ++ acc)%list) [] m)%list.
Proof.
  intros Hg.
  apply (map_fold_insert (≡ₚ)
           (λ (_ : string) (l acc : list Job), (l ++ acc)%list) [] g l m);
    [solve_proper| |done].
  intros j1 j2 z1 z2 y _ _ _. rewrite !app_assoc. f_equiv. apply Permutation_app_comm.
Qed.

Lemma bucket_jobs_push (m : gmap string (list Job)) (g : string) (job : Job) :
  map_fold (λ _ l acc, (l ++ acc)%list) []
    (<[g := (default [] (m !! g) ++ [job])%list]> m)
  ≡ₚ job :: map_fold (λ _ l acc, (l ++ acc)%list) [] m.
Proof.
  destruct (m !! g) as [l|] eqn:E; simpl.
  - rewrite <- (insert_delete_id m g l E) at 2.
    rewrite <- insert_delete_eq.
    rewrite !bucket_jobs_insert by apply lookup_delete_eq.
    rewrite <- app_assoc. simpl. by rewrite <- Permutation_middle.
  - by rewrite bucket_jobs_insert.
Qed.

Lemma groupsDict_jobs (cfg : Settings) (arr : list Job) :
  map_fold (λ _ l acc, (l ++ acc)%list) [] (group_loop cfg arr).1 ≡ₚ arr.
Proof.
  induction arr as [|job arr IH] using rev_ind; [done|].
  rewrite group_loop_snoc.
  destruct (group_loop cfg arr) as [groupsDict initialState]. simpl in *.
  rewrite bucket_jobs_push, IH. apply Permutation_cons_append.
Qed.

(** The jobs listed in the buckets of the view are the jobs of the
    incoming list, each as often as the list has it: the grouping neither
    drops nor repeats a job.  In particular the buckets hold as many jobs as
    the list. *)
Theorem view_jobs_Permutation (cfg : Settings) (created : string) (arr : list Job) :
  view_jobs (groupDataAndJobStat cfg created arr) ≡ₚ arr
  ∧ view_job_count (groupDataAndJobStat cfg created arr) = length arr.
Proof.
  split; [|apply view_job_count_length].
  unfold groupDataAndJobStat, view_jobs.
  pose proof (groupsDict_jobs cfg arr) as Hjobs.
  destruct (group_loop cfg arr) as [groupsDict initialState]. simpl in Hjobs.
  destruct (groupsDict !! "stat") as [l|] eqn:E.
  - rewrite spread_result_stat_group by eauto.
    by rewrite map_fold_fmap.
  - rewrite spread_result_no_stat_group by done.
    etrans.
    { apply (map_fold_insert (≡ₚ)
               (λ (_ : string) v (acc : list Job),
                  match v with QJobs l => (l ++ acc)%list | QStat _ => acc end)
               [] "stat" (QStat initialState) (QJobs <$> groupsDict)).
      - intros j z. destruct z; solve_proper.
      - intros j1 j2 z1 z2 y _ _ _. destruct z1, z2; try done.
        rewrite !app_assoc. f_equiv. apply Permutation_app_comm.
      - by rewrite lookup_fmap, E. }
    by rewrite map_fold_fmap.
Qed.

(** *** The sum of the counters *)

Lemma exact_total_insert (m : gmap string num) (s : string) (v : num) :
  m !! s = None → exact_total (<[s := v]> m) = (count_value v + exact_total m)%Z.
Proof.
  intros Hs. unfold exact_total. rewrite map_fold_insert_L; [done| |done].
  intros. lia.
Qed.

Lemma exact_total_update (m : gmap string num) (s : string) (v v' : num) :
  m !! s = Some v →
  exact_total (<[s := v']> m) = (exact_total m - count_value v + count_value v')%Z.
Proof.
  intros Hs. rewrite <- (insert_delete_id m s v Hs) at 2.
  rewrite <- insert_delete_eq.
  rewrite !exact_total_insert by apply lookup_delete_eq. lia.
Qed.

Lemma exact_total_defaults (obj : gmap string string) :
  exact_total (createObjectWithDefaultValues obj) = 0%Z.
Proof.
  unfold exact_total, createObjectWithDefaultValues. rewrite map_fold_fmap.
  apply (map_fold_weak_ind (λ r _, r = 0%Z)); [done|].
  intros i x m r _ ->. done.
Qed.

(** The counters add up, as doubles, to their exact sum when they are
    counts within the safe range, and to [NaN] when one of them is. *)
Lemma stat_total_counts (m : gmap string num) :
  map_Forall (λ _ v, is_count v) m →
  (exact_total m ≤ MAX_SAFE_INTEGER)%Z →
  (0 ≤ exact_total m)%Z
  ∧ ((∃ i, m !! i = Some NaN) → stat_total m = NaN)
  ∧ ((∀ i, m !! i ≠ Some NaN) → stat_total m = Int (exact_total m)).
Proof.
  unfold stat_total.
  apply (map_fold_weak_ind
           (λ r m, map_Forall (λ _ v, is_count v) m →
                   (exact_total m ≤ MAX_SAFE_INTEGER)%Z →
                   (0 ≤ exact_total m)%Z
                   ∧ ((∃ i, m !! i = Some NaN) → r = NaN)
                   ∧ ((∀ i, m !! i ≠ Some NaN) → r = Int (exact_total m)))).
  { intros _ _. split; [done|]. split; [|done].
    intros [i Hi]. by rewrite lookup_empty in Hi. }
  clear m. intros i x m r Hi IH Htidy Hle.
  apply map_Forall_insert in Htidy as [Hx Hm]; [|done].
  rewrite exact_total_insert in * by done.
  assert (Hx0 : (0 ≤ count_value x)%Z).
  { destruct Hx as [->|(z & -> & Hz)]; simpl; lia. }
  assert (Hnan : (∃ j, m !! j = Some NaN) ∨ (∀ j, m !! j ≠ Some NaN)).
  { destruct (decide (map_Forall (λ _ v, v ≠ NaN) m)) as [Hall|Hex].
    - right. intros j Hj. by apply (Hall j NaN).
    - left. apply map_not_Forall in Hex; [|apply _].
      destruct Hex as (j & v & Hj & Hv). exists j.
      destruct (decide (v = NaN)) as [->|]; [done|]. by destruct Hv. }
  destruct Hx as [->|(z & -> & Hz)]; simpl in *.
  - (* the new counter is NaN *)
    destruct Hnan as [Hyes|Hno]; (destruct IH as (IH0 & IH1 & IH2); [done|lia|]).
    + split; [lia|]. split; [|intros Hall; by destruct (Hall i); rewrite lookup_insert_eq].
      intros _. by rewrite (IH1 Hyes).
    + split; [lia|]. split; [|intros Hall; by destruct (Hall i); rewrite lookup_insert_eq].
      intros _. by rewrite (IH2 Hno).
  - (* the new counter is a count *)
    destruct IH as (IH0 & IH1 & IH2); [done|lia|].
    split; [lia|]. split.
    + intros [j Hj]. destruct (decide (i = j)) as [->|Hij].
      { rewrite lookup_insert_eq in Hj. discriminate Hj. }
      rewrite lookup_insert_ne in Hj by done. by rewrite IH1 by eauto.
    + intros Hall. rewrite IH2.
      * simpl. apply round_double_safe. lia.
      * intros j Hj. apply (Hall j). rewrite lookup_insert_ne; [done|].
        intros ->. by rewrite Hi in Hj.
Qed.

Section Totals.
Context (cfg : Settings).

Lemma group_step_snd_own
    (groupsDict : gmap string (list Job)) (initialState : gmap string num)
    (job : Job) (v : num) :
  initialState !! job_state job = Some v →
  (group_step cfg (groupsDict, initialState) job).2
  = <[job_state job := num_add v (js_number (job_n job))]> initialState.
Proof. intros Hv. unfold group_step. cbn [snd]. by rewrite Hv. Qed.

Lemma group_step_snd_fresh
    (groupsDict : gmap string (list Job)) (initialState : gmap string num)
    (job : Job) :
  initialState !! job_state job = None →
  ordinary (job_state job) →
  (group_step cfg (groupsDict, initialState) job).2
  = <[job_state job := NaN]> initialState.
Proof.
  intros Hv Ho. unfold group_step. cbn [snd].
  by rewrite Hv, Ho, undefined_add_number.
Qed.

Lemma ordinary_states_snoc (arr : list Job) (job : Job) :
  ordinary_states (arr ++ [job]) → ordinary_states arr ∧ ordinary (job_state job).
Proof.
  intros [Harr Hjob]%Forall_app. by inversion Hjob.
Qed.

(** The integers in the counters are the weights of the jobs with a
    configured state. *)
Lemma exact_total_loop (arr : list Job) :
  safe_weights arr →
  ordinary_states arr →
  exact_total (group_loop cfg arr).2
  = weight_sum (filter (λ j, is_Some (jobStates cfg !! job_state j)) arr).
Proof.
  induction arr as [|job arr IH] using rev_ind; intros Hsafe Hord.
  - apply exact_total_defaults.
  - apply safe_weights_snoc in Hsafe as Hsnoc. destruct Hsnoc as [Harr Hn].
    apply ordinary_states_snoc in Hord as [Hord Hjob].
    specialize (IH Harr Hord).
    pose proof (initialState_lookup cfg arr (job_state job) Harr Hord) as Hl.
    rewrite group_loop_snoc, filter_app, weight_sum_app, <- IH.
    destruct (group_loop cfg arr) as [groupsDict initialState] eqn:E.
    cbn [snd] in *.
    destruct (jobStates cfg !! job_state job) as [g|] eqn:Hcfg.
    + rewrite filter_cons_True, filter_nil by (by rewrite Hcfg).
      rewrite (group_step_snd_own _ _ _ _ Hl), (exact_total_update _ _ _ _ Hl).
      destruct Harr as [Hnn _], Hsafe as [_ Hsum]. rewrite weight_sum_snoc in Hsum.
      pose proof (weight_sum_filter (λ j, job_state j = job_state job) arr Hnn).
      rewrite num_add_safe by (unfold jobs_in_state in *; lia).
      unfold weight_sum. simpl. lia.
    + rewrite filter_cons_False, filter_nil
        by (rewrite Hcfg; by intros [? ?]).
      destruct (jobs_in_state (job_state job) arr).
      * rewrite group_step_snd_fresh, exact_total_insert by done.
        unfold weight_sum. simpl. lia.
      * rewrite (group_step_snd_own _ _ _ _ Hl), (exact_total_update _ _ _ _ Hl).
        rewrite num_add_NaN_number. unfold weight_sum. simpl. lia.
Qed.

Lemma initialState_counts (arr : list Job) :
  safe_weights arr →
  ordinary_states arr →
  map_Forall (λ _ v, is_count v) (group_loop cfg arr).2.
Proof.
  intros Hsafe Hord s v. rewrite initialState_lookup by done.
  destruct (jobStates cfg !! s).
  - intros [= <-]. right. eexists. split; [done|].
    destruct Hsafe as [Hnn _]. apply (weight_sum_filter _ arr Hnn).
  - destruct (jobs_in_state s arr); [done|]. intros [= <-]. by left.
Qed.

Lemma filter_all {A : Type} (P : A → Prop) `{!∀ x, Decision (P x)} (l : list A) :
  Forall P l → filter P l = l.
Proof.
  induction 1 as [|x l Hx _ IH]; [done|].
  by rewrite filter_cons_True, IH.
Qed.

Lemma initialState_total (arr : list Job) :
  safe_weights arr →
  ordinary_states arr →
  (all_configured cfg arr → stat_total (group_loop cfg arr).2 = Int (weight_sum arr))
  ∧ (¬ all_configured cfg arr → stat_total (group_loop cfg arr).2 = NaN).
Proof.
  intros Hsafe Hord.
  pose proof (initialState_counts arr Hsafe Hord) as Htidy.
  pose proof (exact_total_loop arr Hsafe Hord) as Hexact.
  assert (Hle : (exact_total (group_loop cfg arr).2 ≤ MAX_SAFE_INTEGER)%Z).
  { rewrite Hexact. destruct Hsafe as [Hnn Hsum].
    pose proof (weight_sum_filter
                  (λ j, is_Some (jobStates cfg !! job_state j)) arr Hnn). lia. }
  destruct (stat_total_counts _ Htidy Hle) as (_ & Hnan & Hint).
  split.
  - intros Hall. rewrite Hint, Hexact; [by rewrite filter_all|].
    intros s. rewrite initialState_lookup by done.
    destruct (jobStates cfg !! s) eqn:Hs; [done|].
    destruct (jobs_in_state s arr) as [|j l] eqn:Ejs; [done|].
    assert (Hj : j ∈ jobs_in_state s arr) by (rewrite Ejs; by left).
    unfold jobs_in_state in Hj. apply list_elem_of_filter in Hj as [Hst Hj].
    unfold all_configured in Hall. rewrite Forall_forall in Hall.
    specialize (Hall j Hj). rewrite Hst, Hs in Hall. by destruct Hall.
  - intros Hnot. apply Hnan.
    apply not_Forall_Exists in Hnot; [|apply _].
    apply Exists_exists in Hnot as (j & Hj & Hcfg). simpl in Hcfg.
    exists (job_state j). rewrite initialState_lookup by done.
    destruct (jobStates cfg !! job_state j) eqn:Hs; [by destruct Hcfg|].
    destruct (jobs_in_state (job_state j) arr) as [|j' l] eqn:Ejs; [|done].
    assert (Hin : j ∈ jobs_in_state (job_state j) arr).
    { unfold jobs_in_state. by apply list_elem_of_filter. }
    rewrite Ejs in Hin. by apply elem_of_nil in Hin.
Qed.

End Totals.

(** With safe weights and without inherited state names, the counters of
    the view add up to the sum of all weights when every job of the list
    carries a configured state, and to [NaN] as soon as one job does
    not. *)
Theorem view_stat_total
    (cfg : Settings) (created : string) (arr : list Job) (stat : gmap string num) :
  safe_weights arr →
  ordinary_states arr →
  groupDataAndJobStat cfg created arr !! "stat" = Some (QStat stat) →
  (all_configured cfg arr → stat_total stat = Int (weight_sum arr))
  ∧ (¬ all_configured cfg arr → stat_total stat = NaN).
Proof.
  intros Hsafe Hord. rewrite groupDataAndJobStat_lookup. intros Hs.
  assert (stat = (group_loop cfg arr).2) as ->.
  { destruct (jobs_in_group cfg "stat" arr); [|done].
    rewrite decide_True in Hs by done. by injection Hs as <-. }
  by apply initialState_total.
Qed.

Lemma view_stat_total_witness :
  safe_weights configured_jobs
  ∧ ordinary_states configured_jobs
  ∧ groupDataAndJobStat example_settings "t0" configured_jobs !! "stat"
    = Some (QStat (group_loop example_settings configured_jobs).2)
  ∧ all_configured example_settings configured_jobs
  ∧ stat_total (group_loop example_settings configured_jobs).2 = Int 9.
Proof.
  assert (H0 : safe_weights configured_jobs).
  { split; apply (bool_decide_unpack _); vm_compute; exact I. }
  assert (H0' : ordinary_states configured_jobs).
  { apply (bool_decide_unpack _). vm_compute. exact I. }
  assert (H1 : groupDataAndJobStat example_settings "t0" configured_jobs !! "stat"
               = Some (QStat (group_loop example_settings configured_jobs).2))
    by (vm_compute; reflexivity).
  assert (H2 : all_configured example_settings configured_jobs).
  { apply (bool_decide_unpack _). vm_compute. exact I. }
  split; [exact H0|]. split; [exact H0'|]. split; [exact H1|]. split; [exact H2|].
  exact (proj1 (view_stat_total example_settings "t0" configured_jobs _ H0 H0' H1) H2).
Defined.

(** *** The order of the jobs *)

Lemma jobs_in_state_nil_Permutation (s : string) (arr1 arr2 : list Job) :
  arr1 ≡ₚ arr2 → jobs_in_state s arr1 = [] → jobs_in_state s arr2 = [].
Proof.
  intros Hp H1. apply Permutation_nil_r. rewrite <- H1.
  unfold jobs_in_state. by rewrite Hp.
Qed.

Lemma safe_weights_Permutation (arr1 arr2 : list Job) :
  arr1 ≡ₚ arr2 → safe_weights arr1 → safe_weights arr2.
Proof.
  intros Hp [Hnn Hsum]. split; [by rewrite <- Hp|].
  by rewrite <- (weight_sum_Permutation arr1 arr2).
Qed.

(** With safe weights and without inherited state names, the counters do
    not depend on the order of the jobs in the list: a reordered list gives
    the same counter object (the buckets, which keep the order of the list,
    may differ). *)
Theorem view_stat_Permutation
    (cfg : Settings) (created1 created2 : string) (arr1 arr2 : list Job)
    (stat : gmap string num) :
  safe_weights arr1 →
  ordinary_states arr1 →
  arr1 ≡ₚ arr2 →
  groupDataAndJobStat cfg created1 arr1 !! "stat" = Some (QStat stat) →
  groupDataAndJobStat cfg created2 arr2 !! "stat" = Some (QStat stat).
Proof.
  intros Hsafe Hord Hp. rewrite !groupDataAndJobStat_lookup.
  assert (Hsafe2 : safe_weights arr2) by by apply (safe_weights_Permutation arr1).
  assert (Hord2 : ordinary_states arr2) by (unfold ordinary_states; by rewrite <- Hp).
  assert (Hg : jobs_in_group cfg "stat" arr1 ≡ₚ jobs_in_group cfg "stat" arr2).
  { unfold jobs_in_group. by rewrite Hp. }
  destruct (jobs_in_group cfg "stat" arr1) as [|j l]; [|done].
  apply Permutation_nil_l in Hg. rewrite <- Hg, !decide_True by done.
  intros [= <-]. do 2 f_equal. apply map_eq. intros s.
  rewrite !initialState_lookup by done.
  destruct (jobStates cfg !! s).
  - do 2 f_equal. apply weight_sum_Permutation. unfold jobs_in_state. by rewrite Hp.
  - destruct (jobs_in_state s arr1) as [|j1 l1] eqn:E1.
    + by rewrite (jobs_in_state_nil_Permutation s arr1 arr2).
    + destruct (jobs_in_state s arr2) as [|j2 l2] eqn:E2; [|done].
      symmetry in Hp. apply (jobs_in_state_nil_Permutation s _ _ Hp) in E2.
      congruence.
Qed.

Lemma view_stat_Permutation_witness :
  safe_weights example_jobs
  ∧ ordinary_states example_jobs
  ∧ example_jobs ≡ₚ reverse example_jobs
  ∧ groupDataAndJobStat example_settings "t1" (reverse example_jobs) !! "stat"
    = Some (QStat (group_loop example_settings example_jobs).2).
Proof.
  assert (H0 : safe_weights example_jobs).
  { split; apply (bool_decide_unpack _); vm_compute; exact I. }
  assert (H0' : ordinary_states example_jobs).
  { apply (bool_decide_unpack _). vm_compute. exact I. }
  assert (H1 : example_jobs ≡ₚ reverse example_jobs).
  { symmetry. apply reverse_Permutation. }
  assert (H2 : groupDataAndJobStat example_settings "t0" example_jobs !! "stat"
               = Some (QStat (group_loop example_settings example_jobs).2))
    by (vm_compute; reflexivity).
  split; [exact H0|]. split; [exact H0'|]. split; [exact H1|].
  exact (view_stat_Permutation example_settings "t0" "t1" example_jobs
           (reverse example_jobs) _ H0 H0' H1 H2).
Defined.

(** ** Reading the store after a summary *)

Lemma summary_queue (cfg : Settings) (w : State * Env) (m : Message) :
  msg_name m = "summary" →
  queue (SOCKET_ONMESSAGE cfg w m).1
  = groupDataAndJobStat cfg (msg_created m) (msg_data m).
Proof.
  intros Hm. destruct w as [st env]. unfold SOCKET_ONMESSAGE.
  by rewrite decide_True.
Qed.










(** After a summary message, the getter of a group other than ['stat']
    gives exactly the jobs of the message that fall into the group, in the
    order of the message, and the empty list when there are none;
    [getJobsByGroupName] gives the same at a group of [jobGroups]. *)
Theorem group_getter_after_summary
    (cfg : Settings) (w : State * Env) (m : Message) (g : string) :
  msg_name m = "summary" →
  g ≠ "stat" →
  g ∈ jobGroups cfg →
  g ≠ "getJobsByGroupName" →
  g ≠ "getStateCounter" →
  group_getter g (SOCKET_ONMESSAGE cfg w m).1
    = GVJobs (jobs_in_group cfg g (msg_data m))
  ∧ getJobsByGroupName cfg (SOCKET_ONMESSAGE cfg w m).1 g
    = Some (GVJobs (jobs_in_group cfg g (msg_data m))).
Proof.
  intros Hm Hg Hin H1 H2.
  assert (Hget : group_getter g (SOCKET_ONMESSAGE cfg w m).1
                 = GVJobs (jobs_in_group cfg g (msg_data m))).
  { unfold group_getter. rewrite summary_queue, groupDataAndJobStat_lookup by done.
    destruct (jobs_in_group cfg g (msg_data m)); [|done].
    by rewrite decide_False. }
  split; [done|].
  unfold getJobsByGroupName, read_getter.
  rewrite getters_group_lookup by done. simpl. by rewrite Hget.
Qed.

Lemma group_getter_after_summary_witness :
  msg_name (summary_msg "t0") = "summary"
  ∧ "waiting" ∈ jobGroups example_settings
  ∧ getJobsByGroupName example_settings
      (SOCKET_ONMESSAGE example_settings (initial_state, initial_env)
         (summary_msg "t0")).1 "waiting"
    = Some (GVJobs [job_pending]).
Proof.
  assert (H : "waiting" ∈ jobGroups example_settings).
  { apply (bool_decide_unpack _). vm_compute. exact I. }
  split; [reflexivity|]. split; [exact H|].
  exact (proj2 (group_getter_after_summary example_settings
                  (initial_state, initial_env) (summary_msg "t0") "waiting"
                  eq_refl ltac:(discriminate) H ltac:(discriminate) ltac:(discriminate))).
Defined.

(** [getJobsByGroupName] at any name: the two getters of the store answer
    to their own names even when a group is called the same, a group of
    [jobGroups] gives its getter, a name that the [getters] object inherits
    gives the inherited function or object, and every other name gives
    [undefined]. *)
Theorem getJobsByGroupName_cases (cfg : Settings) (st : State) (name : string) :
  getJobsByGroupName cfg st name =
    if decide (name = "getStateCounter") then Some GVStateCounter
    else if decide (name = "getJobsByGroupName") then Some GVJobsByGroupName
    else if decide (name ∈ jobGroups cfg) then Some (group_getter name st)
    else GVInherited <$> Object_prototype !! name.
Proof.
  unfold getJobsByGroupName, read_getter, getters.
  destruct (decide (name = "getStateCounter")) as [->|H1].
  { by rewrite lookup_insert_eq. }
  rewrite lookup_insert_ne by done.
  destruct (decide (name = "getJobsByGroupName")) as [->|H2].
  { by rewrite lookup_insert_eq. }
  rewrite lookup_insert_ne, mapGettersJobGroups_lookup by done.
  by destruct (decide (name ∈ jobGroups cfg)).
Qed.

(** Only the set of names matters to [mapGettersJobGroups]: repeating
    names or listing them in another order gives the same getters. *)
Theorem mapGettersJobGroups_same_names (arr1 arr2 : list string) :
  (∀ g, g ∈ arr1 ↔ g ∈ arr2) →
  mapGettersJobGroups arr1 = mapGettersJobGroups arr2.
Proof.
  intros Hsame. apply map_eq. intros g. rewrite !mapGettersJobGroups_lookup.
  destruct (decide (g ∈ arr1)) as [H1|H1].
  - by rewrite decide_True by by apply Hsame.
  - rewrite decide_False; [done|]. intros H2. by apply H1, Hsame.
Qed.

Lemma mapGettersJobGroups_same_names_witness :
  (∀ g : string, g ∈ ["waiting"; "running"; "waiting"] ↔ g ∈ ["running"; "waiting"])
  ∧ mapGettersJobGroups ["waiting"; "running"; "waiting"]
    = mapGettersJobGroups ["running"; "waiting"].
Proof.
  assert (H : ∀ g : string,
             g ∈ ["waiting"; "running"; "waiting"] ↔ g ∈ ["running"; "waiting"]).
  { intros g. rewrite !elem_of_cons, !elem_of_nil. tauto. }
  split; [exact H|].
  exact (mapGettersJobGroups_same_names _ _ H).
Defined.









(** ** The store along a sequence of events *)

Lemma commit_queue_summary (cfg : Settings) (w : State * Env) (e : Event) :
  queue (commit cfg w e).1 =
    match summary_of e with
    | Some m => groupDataAndJobStat cfg (msg_created m) (msg_data m)
    | None => queue w.1
    end.
Proof.
  destruct w as [st env], e; simpl; try done.
  unfold SOCKET_ONMESSAGE. by case_decide.
Qed.

Lemma commit_message (cfg : Settings) (w : State * Env) (e : Event) :
  message (socket (commit cfg w e).1) =
    match message_of e with
    | Some m => Some m
    | None => message (socket w.1)
    end.
Proof.
  destruct w as [st env], e; simpl; try done.
  unfold SOCKET_ONMESSAGE. by case_decide.
Qed.

Lemma commit_sent (cfg : Settings) (w : State * Env) (e : Event) :
  sent (commit cfg w e).2 =
    match open_target e with
    | Some t => (sent w.2 ++ [(t, interest)])%list
    | None => sent w.2
    end.
Proof.
  destruct w as [st env], e; simpl; try done.
  unfold SOCKET_ONMESSAGE. by case_decide.
Qed.

Lemma commit_vue_socket (cfg : Settings) (w : State * Env) (e : Event) :
  vue_socket (commit cfg w e).2 =
    match open_target e with
    | Some t => Some t
    | None => vue_socket w.2
    end.
Proof.
  destruct w as [st env], e; simpl; try done.
  unfold SOCKET_ONMESSAGE. by case_decide.
Qed.

(** After any sequence of events the queue view is the grouping of the
    most recent summary message of the sequence, and the queue the store
    started with when the sequence has no summary message. *)
Theorem run_queue_last_summary (cfg : Settings) (evs : list Event) (w : State * Env) :
  queue (run cfg evs w).1 =
    match last (omap summary_of evs) with
    | Some m => groupDataAndJobStat cfg (msg_created m) (msg_data m)
    | None => queue w.1
    end.
Proof.
  induction evs as [|e evs IH] using rev_ind; [done|].
  rewrite run_snoc, commit_queue_summary, omap_app, last_app. simpl.
  by destruct (summary_of e).
Qed.

(** After any sequence of events the stored message is the most recent
    message of the sequence, whatever its name. *)
Theorem run_message_last (cfg : Settings) (evs : list Event) (w : State * Env) :
  message (socket (run cfg evs w).1) =
    match last (omap message_of evs) with
    | Some m => Some m
    | None => message (socket w.1)
    end.
Proof.
  induction evs as [|e evs IH] using rev_ind; [done|].
  rewrite run_snoc, commit_message, omap_app, last_app. simpl.
  by destruct (message_of e).
Qed.

(** After any sequence of events [reconnectError] is true exactly when it
    was true before or the sequence has a reconnect-error event. *)
Theorem run_reconnectError (cfg : Settings) (evs : list Event) (w : State * Env) :
  reconnectError (socket (run cfg evs w).1) = true
  ↔ reconnectError (socket w.1) = true ∨ ReconnectError ∈ evs.
Proof.
  induction evs as [|e evs IH] using rev_ind.
  - split; [by left|]. intros [?|H]; [done|]. by apply elem_of_nil in H.
  - rewrite run_snoc, commit_reconnectError, elem_of_app, list_elem_of_singleton.
    destruct e; try (rewrite IH; split; [tauto|]; intros [?|[?|?]]; by auto).
    split; [auto|done].
Qed.

(** Along any sequence of events the store sends one subscription object
    for every socket-open event, on the socket of that event and in the
    order of the events, and nothing else; the socket it keeps is that of
    the most recent open event. *)
Theorem run_sent (cfg : Settings) (evs : list Event) (w : State * Env) :
  sent (run cfg evs w).2
    = (sent w.2 ++ ((λ t, (t, interest)) <$> omap open_target evs))%list
  ∧ vue_socket (run cfg evs w).2 =
      match last (omap open_target evs) with
      | Some t => Some t
      | None => vue_socket w.2
      end.
Proof.
  induction evs as [|e evs [IH1 IH2]] using rev_ind.
  - split; [|done]. simpl. by rewrite app_nil_r.
  - rewrite run_snoc, commit_sent, commit_vue_socket, omap_app, last_app, fmap_app.
    simpl. destruct (open_target e) as [t|]; simpl.
    + split; [|done]. by rewrite IH1, <- app_assoc.
    + split; [|done]. by rewrite app_nil_r.
Qed.

(** Socket-error and reconnect events leave the store state as it is and
    send nothing, however many of them arrive. *)
Theorem run_logged_events_keep_state (cfg : Settings) (evs : list Event) (w : State * Env) :
  Forall (λ e, is_logged e = true) evs →
  (run cfg evs w).1 = w.1
  ∧ sent (run cfg evs w).2 = sent w.2
  ∧ vue_socket (run cfg evs w).2 = vue_socket w.2.
Proof.
  induction evs as [|e evs IH] using rev_ind; [done|].
  intros [Hevs He]%Forall_app. inversion He as [|? ? Hl _]; subst.
  destruct (IH Hevs) as (IH1 & IH2 & IH3).
  rewrite run_snoc. destruct (run cfg evs w) as [st env]. simpl in *.
  by destruct e.
Qed.

Lemma run_logged_events_keep_state_witness :
  Forall (λ e, is_logged e = true) [OnError; Reconnect 1; Reconnect 2; OnError]
  ∧ (run example_settings [OnError; Reconnect 1; Reconnect 2; OnError]
       (state_with_queue, initial_env)).1 = state_with_queue.
Proof.
  assert (H : Forall (λ e, is_logged e = true) [OnError; Reconnect 1; Reconnect 2; OnError]).
  { apply (bool_decide_unpack _). vm_compute. exact I. }
  split; [exact H|].
  exact (proj1 (run_logged_events_keep_state example_settings _
                  (state_with_queue, initial_env) H)).
Defined.

(** A summary message wipes out what earlier messages left: handling any
    message and then a summary message gives the same store as handling the
    summary message alone. *)
Theorem summary_absorbs_earlier_message
    (cfg : Settings) (w : State * Env) (m1 m2 : Message) :
  msg_name m2 = "summary" →
  SOCKET_ONMESSAGE cfg (SOCKET_ONMESSAGE cfg w m1) m2 = SOCKET_ONMESSAGE cfg w m2.
Proof.
  intros Hm2. destruct w as [st env]. unfold SOCKET_ONMESSAGE.
  destruct (decide (msg_name m1 = "summary")); simpl;
    rewrite !(decide_True _ _ Hm2); reflexivity.
Qed.

Lemma summary_absorbs_earlier_message_witness :
  msg_name (summary_msg "t1") = "summary"
  ∧ SOCKET_ONMESSAGE example_settings
      (SOCKET_ONMESSAGE example_settings (initial_state, initial_env) ping_msg)
      (summary_msg "t1")
    = SOCKET_ONMESSAGE example_settings (initial_state, initial_env) (summary_msg "t1").
Proof.
  split; [reflexivity|].
  exact (summary_absorbs_earlier_message example_settings (initial_state, initial_env)
           ping_msg (summary_msg "t1") eq_refl).
Defined.

(** Messages and connection events touch separate parts of the store: a
    message may be handled before or after a socket-open, socket-close or
    reconnect-error event with the same outcome. *)
Theorem message_commutes_with_connection_events
    (cfg : Settings) (w : State * Env) (m : Message) (currentTarget : nat) :
  commit cfg (commit cfg w (OnMessage m)) (OnOpen currentTarget)
    = commit cfg (commit cfg w (OnOpen currentTarget)) (OnMessage m)
  ∧ commit cfg (commit cfg w (OnMessage m)) OnClose
    = commit cfg (commit cfg w OnClose) (OnMessage m)
  ∧ commit cfg (commit cfg w (OnMessage m)) ReconnectError
    = commit cfg (commit cfg w ReconnectError) (OnMessage m).
Proof.
  destruct w as [st env]. simpl. unfold SOCKET_ONMESSAGE.
  destruct (decide (msg_name m = "summary")); done.
Qed.

(** ** The runtime model at work *)

(** Doubles: [2 ^ 53 + 1] is not a double, sums round, and the order of
    the summands matters beyond the safe range. *)
Example round_double_examples :
  round_double (2 ^ 53 + 1) = Int (2 ^ 53)
  ∧ round_double (2 ^ 53 + 3) = Int (2 ^ 53 + 4)
  ∧ round_double (2 ^ 1024) = Infinity false
  ∧ num_add (num_add (Int (2 ^ 53)) (Int 1)) (Int 1) = Int (2 ^ 53)
  ∧ num_add (num_add (Int 1) (Int 1)) (Int (2 ^ 53)) = Int (2 ^ 53 + 2).
Proof. repeat split; by vm_compute. Qed.

(** Numbers as strings. *)
Example number_text_examples :
  number_text (Int 1000) = "1000"
  ∧ number_text (Int (-42)) = "-42"
  ∧ number_text (Int (2 ^ 64)) = "18446744073709552000"
  ∧ number_text (Int (10 ^ 21)) = "1e+21"
  ∧ number_text (Int (2 ^ 70)) = "1.1805916207174113e+21"
  ∧ number_text (round_double (10 ^ 23)) = "1e+23"
  ∧ number_text NaN = "NaN".
Proof. repeat split; by vm_compute. Qed.

(** A job whose state is an inherited name leaves a string in the
    counters, and an inherited name turns the result of [getStateCounter]
    into a string. *)
Example inherited_name_examples :
  (group_loop example_settings [job_pending; job_constructor]).2 !! "constructor"
    = Some (Text "function Object() { [native code] }1")
  ∧ getStateCounter state_with_queue ["pending"; "toString"]
    = Text "2function toString() { [native code] }"
  ∧ getStateCounter state_with_queue ["toString"; "pending"]
    = Text "0function toString() { [native code] }2"
  ∧ getStateCounter
      (SOCKET_ONMESSAGE example_settings (initial_state, initial_env)
         (mkMessage "summary" "t2" [])).1 ["toString"]
    = Text "0function toString() { [native code] }"
  ∧ getJobsByGroupName example_settings initial_state "toString"
    = Some (GVInherited "function toString() { [native code] }")
  ∧ getJobsByGroupName example_settings initial_state "nothing" = None.
Proof. repeat split; by vm_compute. Qed.

(** A job array under ['stat']: its length counts, a job at an index and
    an inherited method enter as strings. *)
Example array_under_stat_examples :
  getStateCounter
    (SOCKET_ONMESSAGE stat_settings (initial_state, initial_env)
       (mkMessage "summary" "t3" [job_pending; job_paused])).1 ["length"; "pending"]
    = Int 1
  ∧ getStateCounter
      (SOCKET_ONMESSAGE stat_settings (initial_state, initial_env)
         (mkMessage "summary" "t3" [job_pending; job_paused])).1 ["0"; "1"]
    = Text "0[object Object]0"
  ∧ getStateCounter
      (SOCKET_ONMESSAGE stat_settings (initial_state, initial_env)
         (mkMessage "summary" "t3" [job_pending; job_paused])).1 ["push"]
    = Text "0function push() { [native code] }".
Proof. repeat split; by vm_compute. Qed.
